(** * potato-notebook: the vision loop of [main.py]

    A shallow embedding of [VisionSystem] (camera initialisation, the
    frame-processing loop with its deduplicating snapshot decision, the
    snapshot sink and the cleanup) together with the properties the
    specification states about it.

    Everything the script obtains from OpenCV, the detector, the clock and
    the file system is an input of the model: each loop iteration consumes one
    [tick] that records what those collaborators answer during it.  Effects
    are threaded through a state-and-exception monad whose state, [world],
    holds the fields of the object the loop mutates and a trace of the calls
    it makes to its collaborators. *)

From Stdlib Require Import ZArith QArith Qabs Ascii String DecimalString List Lia.
From Stdlib Require Import Floats.SpecFloat.
From stdpp Require Import base option list gmap strings.

Local Open Scope Z_scope.

(** ** Numbers

    [original_w / 640] is a Python float and the detector's box entries are
    floating-point tensor entries; the format of the product
    [box[0] * scale_x] is that of the tensor, binary32 for the detector's
    boxes.  The rescaling is written once over an interface of the four
    operations it uses, and instantiated with a floating-point format
    (binary32, and binary64 for comparison) and with exact rationals.  The
    rationals are an idealisation: they agree with binary32 where the
    products are exact in binary32, as they are at the sample inputs used
    below, and not everywhere. *)

Class Arith (num : Type) := {
  of_int  : Z -> num;            (* an int promoted to this format *)
  truediv : num -> num -> num;   (* [/] *)
  times   : num -> num -> num;   (* [*] *)
  to_int  : num -> option Z      (* [int(x)]; [None] when it raises *)
}.

(** [int(x)] rounds towards zero. *)
Definition Qtrunc (q : Q) : Z := Z.quot (Qnum q) (Zpos (Qden q)).

#[export] Instance Arith_Q : Arith Q := {
  of_int  := inject_Z;
  truediv := Qdiv;
  times   := Qmult;
  to_int q := Some (Qtrunc q)
}.

Module Float.

(** [int(x)] on a float: the integer part, [ValueError] on a NaN and
    [OverflowError] on an infinity. *)
Definition trunc (x : spec_float) : option Z :=
  match x with
  | S754_zero _ => Some 0
  | S754_finite s m e =>
      let a := if 0 <=? e then Z.pos m * 2 ^ e else Z.pos m / 2 ^ (- e) in
      Some (if s then - a else a)
  | S754_infinity _ => None
  | S754_nan => None
  end.

Section Format.
Variables prec emax : Z.

Definition of_Z (z : Z) : spec_float := binary_normalize prec emax z 0 false.

Definition arith : Arith spec_float := {|
  of_int  := of_Z;
  truediv := SFdiv prec emax;
  times   := SFmul prec emax;
  to_int  := trunc
|}.
End Format.

(** Conversion of a float to the format [prec], [emax]. *)
Definition convert (prec emax : Z) (x : spec_float) : spec_float :=
  match x with
  | S754_finite s m e => binary_round prec emax s m e
  | _ => x
  end.

Definition binary64 : Arith spec_float := arith 53 1024.
Definition binary32 : Arith spec_float := arith 24 128.

End Float.

(** ** Coordinate rescaling (lines 82-83 and 94 of [process_frame]) *)

Section Rescale.
Context {num : Type} {A : Arith num}.

(** [boxes.xyxy]: (x1, y1, x2, y2) in the 640x640 working frame. *)
Definition xyxy : Type := num * num * num * num.

(* scale_x = original_w / 640 *)
Definition scale_x (original_w : Z) : num := truediv (of_int original_w) (of_int 640).
(* scale_y = original_h / 640 *)
Definition scale_y (original_h : Z) : num := truediv (of_int original_h) (of_int 640).

(* x1, y1, x2, y2 = int(box[0] * scale_x), int(box[1] * scale_y),
                    int(box[2] * scale_x), int(box[3] * scale_y)
   The four conversions are evaluated left to right; the first one that
   raises aborts the statement. *)
Definition rescale (original_w original_h : Z) (box : xyxy) : option (Z * Z * Z * Z) :=
  let '(b0, b1, b2, b3) := box in
  x1 ← to_int (times b0 (scale_x original_w));
  y1 ← to_int (times b1 (scale_y original_h));
  x2 ← to_int (times b2 (scale_x original_w));
  y2 ← to_int (times b3 (scale_y original_h));
  Some (x1, y1, x2, y2).
End Rescale.

(** ** Text formatting *)

(** [str(n)] for an int. *)
Definition decimal (n : Z) : string := NilZero.string_of_int (Z.to_int n).

(** Left padding with zeros up to [width] characters (the [0w] of a format
    specification, and the fixed-width fields of [strftime]). *)
Definition zfill (width : nat) (s : string) : string :=
  String.concat "" (replicate (width - String.length s) "0"%string) ++ s.

(** Rounding of a non-negative rational to the nearest integer, ties to the
    even one: the rounding of float formatting. *)
Definition round_half_even (q : Q) : Z :=
  let n := Qnum q in
  let d := Z.pos (Qden q) in
  let t := n / d in
  let r := n mod d in
  match 2 * r ?= d with
  | Lt => t
  | Gt => t + 1
  | Eq => if Z.even t then t else t + 1
  end.

(** [f'{score:.2f}'], on the exact value of the float. *)
Definition format_2f (score : Q) : string :=
  let hundredths := round_half_even (Qabs score * 100)%Q in
  (if Qnum score <? 0 then "-" else "")
  ++ decimal (hundredths / 100) ++ "." ++ zfill 2 (decimal (hundredths mod 100)).

(** A reading of [datetime.now()]. *)
Record datetime := {
  year : Z; month : Z; day : Z;
  hour : Z; minute : Z; second : Z;
  microsecond : Z
}.

(** [now.strftime("%d-%m-%Y %H-%M-%S-")] *)
Definition strftime (now : datetime) : string :=
  zfill 2 (decimal (day now)) ++ "-" ++ zfill 2 (decimal (month now)) ++ "-"
  ++ zfill 4 (decimal (year now)) ++ " "
  ++ zfill 2 (decimal (hour now)) ++ "-" ++ zfill 2 (decimal (minute now)) ++ "-"
  ++ zfill 2 (decimal (second now)) ++ "-".

(** [os.path.join(a, b)] for a relative [b]: no separator is added after a
    directory that already ends with one. *)
Definition os_path_join (a b : string) : string :=
  match String.get (String.length a - 1) a with
  | Some "/"%char => a ++ b
  | _ => if String.eqb a "" then b else a ++ "/" ++ b
  end.

(** ** The fields [__init__] sets *)

Definition color : Type := Z * Z * Z.

(* self.save_path *)
Definition save_path : string := "c:/potato-identifier/".

(* self.colors *)
Definition colors : gmap string color :=
  {[ "OK"               := (0, 255, 0);
     "PODRE"            := (255, 0, 0);
     "PEDRA"            := (0, 0, 255);
     "PEDRA-NA-BATATA"  := (0, 0, 255);
     "BATATA-COM-PEDRA" := (0, 0, 255) ]}.

(** The test on the label at line 103. *)
Definition is_stone (label : string) : bool :=
  String.eqb label "PEDRA" || String.eqb label "PEDRA-NA-BATATA"
  || String.eqb label "BATATA-COM-PEDRA".

(** The Flagged-Class Set of the specification. *)
Definition flagged_classes : gset string :=
  {[ "PEDRA"; "PEDRA-NA-BATATA"; "BATATA-COM-PEDRA" ]}.

(** ** Frames, events and the mutable state *)

(** A drawing call applied to [frame_com_desenhos]. *)
Inductive draw_op :=
| Rectangle (pt1 pt2 : Z * Z) (c : color) (thickness : Z)
| PutText (text : string) (org : Z * Z) (c : color) (thickness : Z).

(** [frame_com_desenhos]: the copy of the captured frame, as the list of
    drawing calls applied to it so far, oldest first. *)
Definition canvas : Type := list draw_op.

Inductive log_msg :=
| ErrOpenCamera          (* "Erro ao abrir webcam no indice ..." *)
| InfoCameraOpened       (* "Webcam encontrada e aberta com sucesso." *)
| ErrInitCamera          (* "Erro ao inicializar webcam: ..." *)
| ErrNoCamera            (* "Nenhuma webcam encontrada. ..." *)
| InfoDirCreated         (* "Diretorio criado: ..." *)
| InfoSnapshotSaved (filename : string)   (* "Print da tela salvo em: ..." *)
| ErrSaveFailed          (* "Falha ao salvar a imagem da pedra: ..." *)
| WarnCaptureFailed      (* "Falha ao capturar frame da webcam" *)
| ErrProcessFrame        (* "Erro ao processar o frame: ..." *)
| InfoReleased           (* "Recursos liberados com sucesso" *)
| ErrCleanup.            (* "Erro durante a limpeza: ..." *)

(** What the script does to the outside, in order.  [Enter_process_frame] and
    [Enter_cleanup] mark the entry into those methods, [SaveStoneImage t] the
    call of the snapshot sink made for the instance tracked as [t], and
    [RegistryAdd t] the statement [self.saved_stone_ids.add(t)]. *)
Inductive event :=
| Log (m : log_msg)
| Print_exit             (* the message of [main]'s else branch *)
| VideoCapture
| CameraSet
| WindowSetup            (* namedWindow, setWindowProperty *)
| Enter_process_frame
| Enter_cleanup
| CameraRead
| Resize
| Track                  (* the detector: self.model.track *)
| SaveStoneImage (track_id : Z)
| Makedirs
| Imwrite (filename : string) (frame : canvas)
| RegistryAdd (track_id : Z)
| Imshow (frame : canvas)
| WaitKey
| Release
| DestroyAllWindows.

#[export] Instance draw_op_eq_dec : EqDecision draw_op.
Proof. solve_decision. Defined.
#[export] Instance log_msg_eq_dec : EqDecision log_msg.
Proof. solve_decision. Defined.
#[export] Instance event_eq_dec : EqDecision event.
Proof. solve_decision. Defined.

Record world := {
  camera : option bool;          (* self.camera: None, or a capture and its isOpened() *)
  saved_stone_ids : gset Z;      (* self.saved_stone_ids *)
  dir_exists : bool;             (* os.path.exists(self.save_path) *)
  files : gmap string canvas     (* the images under self.save_path *)
}.

Definition set_camera (c : option bool) (w : world) : world :=
  {| camera := c; saved_stone_ids := saved_stone_ids w;
     dir_exists := dir_exists w; files := files w |}.
Definition add_saved (t : Z) (w : world) : world :=
  {| camera := camera w; saved_stone_ids := {[ t ]} ∪ saved_stone_ids w;
     dir_exists := dir_exists w; files := files w |}.
Definition create_dir (w : world) : world :=
  {| camera := camera w; saved_stone_ids := saved_stone_ids w;
     dir_exists := true; files := files w |}.
Definition write_file (name : string) (content : canvas) (w : world) : world :=
  {| camera := camera w; saved_stone_ids := saved_stone_ids w;
     dir_exists := dir_exists w; files := <[ name := content ]> (files w) |}.

(** ** The monad: state, a trace of events, and exceptions *)

Inductive result (A : Type) :=
| Ok (a : A)
| Raised.                (* an [Exception] is propagating *)
Arguments Ok {A} a.
Arguments Raised {A}.

Definition M (A : Type) : Type := world -> result A * world * list event.

Definition ret {A} (a : A) : M A := fun w => (Ok a, w, []).

Definition bind {A B} (m : M A) (k : A -> M B) : M B := fun w =>
  match m w with
  | (Ok a, w', e1) => let '(r, w'', e2) := k a w' in (r, w'', e1 ++ e2)
  | (Raised, w', e1) => (Raised, w', e1)
  end.

Definition raise {A} : M A := fun w => (Raised, w, []).

(* try: body / except Exception: handler *)
Definition try_except {A} (body handler : M A) : M A := fun w =>
  match body w with
  | (Ok a, w', e1) => (Ok a, w', e1)
  | (Raised, w', e1) => let '(r, w'', e2) := handler w' in (r, w'', e1 ++ e2)
  end.

Definition emit (ev : event) : M unit := fun w => (Ok tt, w, [ev]).
Definition gets {A} (f : world -> A) : M A := fun w => (Ok (f w), w, []).
Definition modify (f : world -> world) : M unit := fun w => (Ok tt, f w, []).

(** A collaborator call that returns nothing: it raises unless [ok]. *)
Definition check (ok : bool) : M unit := if ok then ret tt else raise.

(** An operation that raises where the option is [None]. *)
Definition lift {A} (o : option A) : M A :=
  match o with Some a => ret a | None => raise end.

Declare Scope vision_scope.
Delimit Scope vision_scope with vision.
Notation "x <- m ;; k" := (bind m (fun x => k))
  (at level 20, m at level 99, k at level 200, only parsing) : vision_scope.
Notation "' p <- m ;; k" := (bind m (fun x => let 'p := x in k))
  (at level 20, p pattern, m at level 99, k at level 200, only parsing) : vision_scope.
Notation "m ;; k" := (bind m (fun _ => k))
  (at level 100, k at level 200, only parsing, right associativity) : vision_scope.

Definition value {A} (x : result A * world * list event) : result A := fst (fst x).
Definition final {A} (x : result A * world * list event) : world := snd (fst x).
Definition events {A} (x : result A * world * list event) : list event := snd x.

(** ** What the collaborators answer *)

(* cv2.imwrite(filename, frame) *)
Inductive imwrite_outcome :=
| Written                (* the file is on disk *)
| NotWritten             (* returned False: nothing written, nothing raised *)
| ImwriteRaises.

(** The answers one call of [save_stone_image] gets. *)
Record sink_env := {
  makedirs_ok : bool;            (* os.makedirs succeeds, when it is called *)
  now_date : datetime;           (* the first datetime.now(), given to strftime *)
  now_ms : datetime;             (* the second datetime.now(), for the milliseconds *)
  imwrite : imwrite_outcome
}.

(* self.camera.read() *)
Inductive read_outcome :=
| ReadRaises
| ReadFailed                               (* ret is False *)
| ReadOk (original_h original_w : Z).      (* ret is True; frame.shape[:2] *)

(* cv2.VideoCapture(self.camera_index) *)
Inductive capture_outcome :=
| CaptureRaises
| CaptureClosed          (* a capture whose isOpened() is False *)
| CaptureOpened.

(** The rest of [init_camera] once the capture is open. *)
Inductive setup_outcome :=
| SetRaises              (* self.camera.set raises *)
| WindowRaises           (* namedWindow or setWindowProperty raises *)
| SetupOk.

Section Vision.
Context {num : Type} {A : Arith num}.

(** [self.model.names]: class index to label, read from the model file. *)
Variable names : gmap Z string.

(** One element of [zip(boxes, classes, scores, track_ids)], with what the
    drawing calls and the sink answer while it is processed. *)
Record instance := {
  box : @xyxy num;
  cls : Z;                     (* int(cls) *)
  score : Q;                   (* the confidence, exactly *)
  track_id : Z;
  rectangle_ok : bool;         (* cv2.rectangle returns *)
  putText_ok : bool;           (* cv2.putText returns *)
  sink : sink_env
}.

(* cv2.resize, self.model.track and results[0].boxes *)
Inductive track_outcome :=
| ResizeRaises
| TrackRaises
| NoTracks                     (* results[0].boxes.id is None *)
| Tracks (instances : list instance).

(** One iteration's worth of answers. *)
Record tick := {
  read : read_outcome;
  track : track_outcome;
  imshow_ok : bool;            (* cv2.imshow returns *)
  key : Z                      (* cv2.waitKey(1) *)
}.

Local Open Scope vision_scope.

(** *** [init_camera] *)
Definition init_camera (capture : capture_outcome) (setup : setup_outcome) : M bool :=
  try_except
    (emit VideoCapture ;;
     match capture with
     | CaptureRaises => raise
     | CaptureClosed =>
         modify (set_camera (Some false)) ;;
         emit (Log ErrOpenCamera) ;;
         ret false
     | CaptureOpened =>
         modify (set_camera (Some true)) ;;
         emit CameraSet ;;
         check (match setup with SetRaises => false | _ => true end) ;;
         emit (Log InfoCameraOpened) ;;
         emit WindowSetup ;;
         check (match setup with WindowRaises => false | _ => true end) ;;
         ret true
     end)
    (emit (Log ErrInitCamera) ;;
     emit (Log ErrNoCamera) ;;
     ret false).

(** *** [save_stone_image] *)
Definition snapshot_name (env : sink_env) : string :=
  let timestamp :=
    (strftime (now_date env)
     ++ zfill 3 (decimal (microsecond (now_ms env) / 1000)))%string in
  os_path_join save_path (timestamp ++ ".jpg")%string.

Definition save_stone_image (frame : canvas) (env : sink_env) : M unit :=
  try_except
    (there <- gets dir_exists ;;
     (if there then ret tt
      else
        emit Makedirs ;;
        check (makedirs_ok env) ;;
        modify create_dir ;;
        emit (Log InfoDirCreated)) ;;
     let filename := snapshot_name env in
     emit (Imwrite filename frame) ;;
     match imwrite env with
     | Written => modify (write_file filename frame)
     | NotWritten => ret tt
     | ImwriteRaises => raise
     end ;;
     emit (Log (InfoSnapshotSaved filename)))
    (emit (Log ErrSaveFailed)).

(** *** [process_frame] *)

(** A drawing call on [frame_com_desenhos]. *)
Definition draw (ok : bool) (op : draw_op) (frame : canvas) : M canvas :=
  check ok ;; ret (frame ++ [op]).

(** The body of the [for] loop, lines 94 to 105. *)
Definition process_instance (original_w original_h : Z) (i : instance)
    (frame : canvas) : M canvas :=
  ' (x1, y1, x2, y2) <- lift (rescale original_w original_h (box i)) ;;
  label <- lift (names !! cls i) ;;
  let color := default (0, 255, 0) (colors !! label) in
  let display_text := (label ++ ": " ++ format_2f (score i))%string in
  frame <- draw (rectangle_ok i) (Rectangle (x1, y1) (x2, y2) color 2) frame ;;
  frame <- draw (putText_ok i) (PutText display_text (x1, y1 - 10) color 2) frame ;;
  saved <- gets saved_stone_ids ;;
  (if is_stone label && negb (bool_decide (track_id i ∈ saved)) then
     emit (SaveStoneImage (track_id i)) ;;
     save_stone_image frame (sink i) ;;
     emit (RegistryAdd (track_id i)) ;;
     modify (add_saved (track_id i))
   else ret tt) ;;
  ret frame.

(* for box, cls, score, track_id in zip(...): *)
Fixpoint for_instances (original_w original_h : Z) (l : list instance)
    (frame : canvas) : M canvas :=
  match l with
  | [] => ret frame
  | i :: l' =>
      frame' <- process_instance original_w original_h i frame ;;
      for_instances original_w original_h l' frame'
  end.

(** How the body of [while True] ends. *)
Inductive control := Continue | Break.

(** The [try] block, lines 72 to 109. *)
Definition loop_body (tk : tick) : M control :=
  emit CameraRead ;;
  match read tk with
  | ReadRaises => raise
  | ReadFailed => emit (Log WarnCaptureFailed) ;; ret Continue
  | ReadOk original_h original_w =>
      emit Resize ;;
      check (match track tk with ResizeRaises => false | _ => true end) ;;
      emit Track ;;
      check (match track tk with TrackRaises => false | _ => true end) ;;
      frame_com_desenhos <-
        match track tk with
        | Tracks l => for_instances original_w original_h l []
        | _ => ret []
        end ;;
      emit (Imshow frame_com_desenhos) ;;
      check (imshow_ok tk) ;;
      emit WaitKey ;;
      if Z.land (key tk) 255 =? 113 (* ord('q') *) then ret Break else ret Continue
  end.

(** One pass through [while True]: the [try] block and its handler. *)
Definition iteration (tk : tick) : M control :=
  try_except (loop_body tk) (emit (Log ErrProcessFrame) ;; ret Continue).

(** Where the loop is once the given ticks are consumed. *)
Inductive loop_status := Exited | Running.

(* while True: *)
Fixpoint while_true (ticks : list tick) : M loop_status :=
  match ticks with
  | [] => ret Running
  | tk :: rest =>
      c <- iteration tk ;;
      match c with
      | Break => ret Exited
      | Continue => while_true rest
      end
  end.

Definition process_frame (ticks : list tick) : M loop_status :=
  emit Enter_process_frame ;; while_true ticks.

(** *** [cleanup] *)
Definition cleanup (release_ok destroy_ok : bool) : M unit :=
  emit Enter_cleanup ;;
  try_except
    (cam <- gets camera ;;
     (* if self.camera and self.camera.isOpened(): *)
     match cam with
     | Some true =>
         emit Release ;;
         check release_ok ;;
         modify (set_camera (Some false))
     | _ => ret tt
     end ;;
     emit DestroyAllWindows ;;
     check destroy_ok ;;
     emit (Log InfoReleased))
    (emit (Log ErrCleanup)).

(** *** [main]: the [with] block *)
Record session := {
  capture : capture_outcome;
  setup : setup_outcome;
  ticks : list tick;
  release_ok : bool;
  destroy_ok : bool
}.

Definition main (s : session) : M loop_status :=
  (* __enter__ *)
  init_camera (capture s) (setup s) ;;
  cam <- gets camera ;;
  status <-
    match cam with
    | Some true => process_frame (ticks s)
    | _ => emit Print_exit ;; ret Exited
    end ;;
  match status with
  | Running => ret Running
  | Exited =>
      (* __exit__ *)
      cleanup (release_ok s) (destroy_ok s) ;; ret Exited
  end.

End Vision.

(** The state [__init__] leaves: no camera, an empty registry. *)
Definition fresh (dir_there : bool) : world :=
  {| camera := None; saved_stone_ids := ∅; dir_exists := dir_there; files := ∅ |}.

(** ** Vocabulary of the properties *)

(** A relation between the state before a computation, the events it emits
    and the state after it, that holds of doing nothing and composes along
    sequencing.  Such a relation, once it holds of the primitive steps, holds
    of every computation built from them. *)
Class Stepwise (R : world -> list event -> world -> Prop) := {
  stepwise_nil : forall w, R w [] w;
  stepwise_app : forall w1 e1 w2 e2 w3, R w1 e1 w2 -> R w2 e2 w3 -> R w1 (e1 ++ e2) w3
}.

Definition respects {A} (R : world -> list event -> world -> Prop) (m : M A) : Prop :=
  forall w, R w (events (m w)) (final (m w)).

(** The number of times the sink is called for the track [t]. *)
Definition snapshots (t : Z) (evs : list event) : nat :=
  count_occ event_eq_dec evs (SaveStoneImage t).

(** 1 when [t] is in the registry, 0 when it is not. *)
Definition marked (t : Z) (w : world) : nat :=
  if bool_decide (t ∈ saved_stone_ids w) then 1%nat else 0%nat.

(** The sink is called for [t] exactly when [t] enters the registry. *)
Definition counted (t : Z) : world -> list event -> world -> Prop :=
  fun w1 evs w2 => (snapshots t evs + marked t w1 = marked t w2)%nat.

(** The registry only grows. *)
Definition grows : world -> list event -> world -> Prop :=
  fun w1 _ w2 => saved_stone_ids w1 ⊆ saved_stone_ids w2.

(** Neither the registry, nor the camera, nor the disk changes, and no event
    satisfies [bad]. *)
Definition quiet (bad : event -> Prop) : world -> list event -> world -> Prop :=
  fun w1 evs w2 => w2 = w1 /\ Forall (fun ev => ~ bad ev) evs.

(** When [t] is in the registry afterwards, it was there before or [Q]
    holds. *)
Definition enters_only_if (t : Z) (Q : Prop) : world -> list event -> world -> Prop :=
  fun w1 _ w2 => t ∈ saved_stone_ids w2 -> t ∈ saved_stone_ids w1 \/ Q.

(** When the sink is called for [t], [Q] holds. *)
Definition snapshot_only_if (t : Z) (Q : Prop) : world -> list event -> world -> Prop :=
  fun _ evs _ => SaveStoneImage t ∈ evs -> Q.

(** The events of a snapshot: the call of the sink, the write, the insertion
    into the registry. *)
Definition snapshot_event (ev : event) : Prop :=
  match ev with
  | SaveStoneImage _ | Makedirs | Imwrite _ _ | RegistryAdd _ => True
  | _ => False
  end.

(** The events [save_stone_image] itself can emit. *)
Definition sink_event (ev : event) : Prop :=
  match ev with
  | Makedirs | Imwrite _ _ | Log InfoDirCreated | Log (InfoSnapshotSaved _)
  | Log ErrSaveFailed => True
  | _ => False
  end.

(** The calls of [cv2.imwrite]: file name and image, in order. *)
Definition writes (evs : list event) : list (string * canvas) :=
  flat_map (fun ev => match ev with Imwrite name frame => [(name, frame)] | _ => [] end)
    evs.

(** Every event emitted satisfies [P]. *)
Definition emits_only (P : event -> Prop) : world -> list event -> world -> Prop :=
  fun _ evs _ => Forall P evs.

(** The events the body of the [for] loop can emit. *)
Definition instance_event (ev : event) : Prop := snapshot_event ev \/ sink_event ev.

Section Vocabulary.
Context {num : Type} {A : Arith num}.
Variable names : gmap Z string.

(** The label of an instance, when [self.model.names] has one. *)
Definition label_of (i : @instance num) : option string := names !! cls i.

(** The instance carries a label of the Flagged-Class Set. *)
Definition stone (i : @instance num) : Prop :=
  exists label, label_of i = Some label /\ is_stone label = true.

(** The instances the detector reports in a tick. *)
Definition instances_of (tk : @tick num) : list instance :=
  match track tk with Tracks l => l | _ => [] end.

(** The tick shows the track [t] with a flagged label. *)
Definition shows_stone (t : Z) (tk : @tick num) : Prop :=
  exists i, i ∈ instances_of tk /\ track_id i = t /\ stone i.

(** Nothing raises while the instance is rescaled, labelled and drawn. *)
Definition drawable (original_w original_h : Z) (i : @instance num) : Prop :=
  is_Some (rescale original_w original_h (box i)) /\ is_Some (label_of i)
  /\ rectangle_ok i = true /\ putText_ok i = true.

(** A frame was read, the detector reported tracks, and every instance can
    be drawn: the [for] loop runs to its end. *)
Definition sound (tk : @tick num) : Prop :=
  exists h w l, read tk = ReadOk h w /\ track tk = Tracks l
                /\ Forall (drawable w h) l.

(** The key polled in this tick is the stop key. *)
Definition stop_key (tk : @tick num) : bool := Z.land (key tk) 255 =? 113.

(** What lines 94 to 101 draw for an instance. *)
Definition annotation (original_w original_h : Z) (i : @instance num) : canvas :=
  match rescale original_w original_h (box i), label_of i with
  | Some (x1, y1, x2, y2), Some label =>
      let color := default (0, 255, 0) (colors !! label) in
      [ Rectangle (x1, y1) (x2, y2) color 2;
        PutText (label ++ ": " ++ format_2f (score i))%string (x1, y1 - 10) color 2 ]
  | _, _ => []
  end.
End Vocabulary.

(** ** A sample installation

    Exact arithmetic, the five labels of the colour table as the model's
    classes, a 1980x1080 camera, and a clock on 3 November 2026. *)

Module Sample.

Definition names : gmap Z string :=
  {[ 0 := "OK"%string; 1 := "PODRE"%string; 2 := "PEDRA"%string;
     3 := "PEDRA-NA-BATATA"%string; 4 := "BATATA-COM-PEDRA"%string ]}.

(** 09:05:07 and [us] microseconds. *)
Definition clock (us : Z) : datetime :=
  {| year := 2026; month := 11; day := 3; hour := 9; minute := 5; second := 7;
     microsecond := us |}.

(** A sink whose write ends as [out], called at [us] microseconds. *)
Definition sink_at (us : Z) (out : imwrite_outcome) : sink_env :=
  {| makedirs_ok := true; now_date := clock us; now_ms := clock us; imwrite := out |}.

(** An instance of class [c] tracked as [t], with confidence [s]. *)
Definition seen (c : Z) (s : Q) (t : Z) (env : sink_env) : @instance Q :=
  {| box := (10 # 1, 20 # 1, 100 # 1, 200 # 1)%Q; cls := c; score := s;
     track_id := t; rectangle_ok := true; putText_ok := true; sink := env |}.

(** A tick in which the frame is read, the detector reports [l] and the key
    [k] is polled. *)
Definition frame_with (l : list (@instance Q)) (k : Z) : @tick Q :=
  {| read := ReadOk 1080 1980; track := Tracks l; imshow_ok := true; key := k |}.

(** The same instance with its box in binary32, as the detector gives it. *)
Definition seen32 (c : Z) (s : Q) (t : Z) (env : sink_env) : @instance spec_float :=
  {| box := (Float.of_Z 24 128 10, Float.of_Z 24 128 20,
             Float.of_Z 24 128 100, Float.of_Z 24 128 200);
     cls := c; score := s;
     track_id := t; rectangle_ok := true; putText_ok := true; sink := env |}.

Definition frame32 (l : list (@instance spec_float)) (k : Z) : @tick spec_float :=
  {| read := ReadOk 1080 1980; track := Tracks l; imshow_ok := true; key := k |}.


(** The scenario of the specification: track 7 as PEDRA twice, then track 12
    as OK, then track 12 as BATATA-COM-PEDRA. *)
Definition scenario : list (@tick Q) :=
  [ frame_with [seen 2 (81 # 100) 7 (sink_at 1000 Written)] (-1);
    frame_with [seen 2 (85 # 100) 7 (sink_at 2000 Written)] (-1);
    frame_with [seen 0 (90 # 100) 12 (sink_at 3000 Written)] (-1);
    frame_with [seen 4 (77 # 100) 12 (sink_at 4000 Written)] (-1) ].

End Sample.

(** ** Further vocabulary *)

(** The number of events of a trace that satisfy [p]. *)
Definition occurrences (p : event -> bool) (evs : list event) : nat :=
  length (List.filter p evs).

Definition is_dir_created (ev : event) : bool :=
  match ev with Log InfoDirCreated => true | _ => false end.

(** The events the loop emits outside the body of its [for]. *)
Definition loop_event (ev : event) : Prop :=
  match ev with
  | CameraRead | Resize | Track | Imshow _ | WaitKey | Enter_process_frame
  | Log WarnCaptureFailed | Log ErrProcessFrame => True
  | _ => False
  end.

(** The events of [init_camera], [cleanup] and the else branch of [main]. *)
Definition lifecycle_event (ev : event) : Prop :=
  match ev with
  | VideoCapture | CameraSet | WindowSetup | Release | DestroyAllWindows
  | Enter_cleanup | Print_exit
  | Log ErrOpenCamera | Log InfoCameraOpened | Log ErrInitCamera | Log ErrNoCamera
  | Log InfoReleased | Log ErrCleanup => True
  | _ => False
  end.

(** The camera field is left as it was. *)
Definition keeps_camera : world -> list event -> world -> Prop :=
  fun w1 _ w2 => camera w2 = camera w1.

(** A destination directory that exists stays, and is not created again. *)
Definition keeps_directory : world -> list event -> world -> Prop :=
  fun w1 evs w2 =>
    dir_exists w1 = true -> dir_exists w2 = true /\ Makedirs ∉ evs.

(** The directory is reported created exactly when it comes into being. *)
Definition directory_counted : world -> list event -> world -> Prop :=
  fun w1 evs w2 =>
    (occurrences is_dir_created evs + (if dir_exists w1 then 1 else 0)
     = (if dir_exists w2 then 1 else 0))%nat.

(** No file disappears. *)
Definition files_grow : world -> list event -> world -> Prop :=
  fun w1 _ w2 => dom (files w1) ⊆ dom (files w2).

(** The sink is called for [t] exactly when the insertion of [t] is
    reached. *)
Definition paired (t : Z) : world -> list event -> world -> Prop :=
  fun _ evs _ => SaveStoneImage t ∈ evs <-> RegistryAdd t ∈ evs.

(** A file that is there afterwards was there before or has been written. *)
Definition files_written : world -> list event -> world -> Prop :=
  fun w1 evs w2 =>
    forall name, name ∈ dom (files w2) ->
                 name ∈ dom (files w1) \/ exists frame, Imwrite name frame ∈ evs.

(** The number a string of decimal digits denotes, after [acc]. *)
Fixpoint digits_value (acc : Z) (s : string) : Z :=
  match s with
  | EmptyString => acc
  | String c s' => digits_value (10 * acc + (Z.of_nat (nat_of_ascii c) - 48)) s'
  end.

(** The ranges of the fields of a [datetime] (years of four digits). *)
Definition clock_in_range (t : datetime) : Prop :=
  1000 <= year t <= 9999 /\ 1 <= month t <= 12 /\ 1 <= day t <= 31
  /\ 0 <= hour t <= 23 /\ 0 <= minute t <= 59 /\ 0 <= second t <= 59
  /\ 0 <= microsecond t <= 999999.

(** The colour a drawing call uses. *)
Definition colour_of (op : draw_op) : color :=
  match op with Rectangle _ _ c _ => c | PutText _ _ c _ => c end.

(** The exact value of a float; an infinity and a NaN have none. *)
Definition float_value (x : spec_float) : option Q :=
  match x with
  | S754_zero _ => Some 0%Q
  | S754_finite s m e =>
      let v := if 0 <=? e then inject_Z (Z.pos m * 2 ^ e)
               else (Z.pos m # Z.to_pos (2 ^ (- e))) in
      Some (if s then Qopp v else v)
  | S754_infinity _ => None
  | S754_nan => None
  end.

(** The float [x] is finite and its exact value is the rational [q]. *)
Definition float_is (x : spec_float) (q : Q) : Prop :=
  exists v, float_value x = Some v /\ (v == q)%Q.

(** The calls the loop makes to the camera, the detector and the display. *)
Inductive call := CallRead | CallResize | CallTrack | CallImshow | CallWaitKey.

Definition call_of (ev : event) : option call :=
  match ev with
  | CameraRead => Some CallRead
  | Resize => Some CallResize
  | Track => Some CallTrack
  | Imshow _ => Some CallImshow
  | WaitKey => Some CallWaitKey
  | _ => None
  end.

(** Those calls, in the order of the trace. *)
Definition calls (evs : list event) : list call := omap call_of evs.

(** The calls of an iteration that runs through, in order. *)
Definition full_iteration : list call :=
  [CallRead; CallResize; CallTrack; CallImshow; CallWaitKey].

Section MoreVocabulary.
Context {num : Type} {A : Arith num}.
Variable names : gmap Z string.

(** [stone], as a test. *)
Definition stoneb (i : @instance num) : bool :=
  match names !! cls i with Some label => is_stone label | None => false end.

(** The tracks a list of instances shows with a flagged label. *)
Definition flagged_ids (l : list (@instance num)) : gset Z :=
  list_to_set (map track_id (List.filter stoneb l)).

(** The [for] loop of the tick reaches the decision of line 103 on an
    instance tracked as [t] with a flagged label: a frame is read, and in the
    list the detector reports that instance is rescaled, labelled and drawn
    without raising, and so is every instance before it. *)
Definition reaches_stone (t : Z) (tk : @tick num) : Prop :=
  exists oh ow l1 i l2,
    read tk = ReadOk oh ow /\ track tk = Tracks (l1 ++ i :: l2)
    /\ Forall (drawable names ow oh) l1 /\ drawable names ow oh i
    /\ track_id i = t /\ stone names i.

(** [main()] from its first line: the constructor of line 134, which loads
    the model ([YOLO(model_path)], line 12) outside any [try], and then the
    [with] block. *)
Definition main_with_constructor (constructed : bool) (s : @session num)
    : M loop_status :=
  bind (check constructed) (fun _ => main names s).
End MoreVocabulary.

(** * Properties *)

(** ** Truncation *)

(** [Qtrunc q] is the integer next to [q] on the side of zero. *)
Lemma Qtrunc_spec (q : Q) :
  ((0 <= q)%Q -> (inject_Z (Qtrunc q) <= q)%Q /\ (q < inject_Z (Qtrunc q + 1))%Q) /\
  ((q <= 0)%Q -> (q <= inject_Z (Qtrunc q))%Q /\ (inject_Z (Qtrunc q - 1) < q)%Q).
Proof.
  destruct q as [n d]. unfold Qtrunc, Qle, Qlt, inject_Z. simpl.
  pose proof (Z.quot_rem' n (Z.pos d)) as E.
  split; intros Hs; rewrite Z.mul_1_r in Hs.
  - pose proof (Z.rem_bound_pos n (Z.pos d) Hs ltac:(lia)) as B. nia.
  - pose proof (Z.rem_bound_pos_neg n (Z.pos d) ltac:(lia) Hs) as B. nia.
Qed.

(** ** Reasoning along the monad *)

Ltac run_step :=
  match goal with
  | |- context [match ?m ?w with _ => _ end] =>
      let r := fresh "r" in let w' := fresh "w" in let e := fresh "e" in
      destruct (m w) as [[[r|] w'] e] eqn:?
  end.

Section Rules.
Context (R : world -> list event -> world -> Prop) `{!Stepwise R}.

Lemma respects_ret {X} (x : X) : respects R (ret x).
Proof. intros w. apply stepwise_nil. Qed.

Lemma respects_raise {X} : respects R (@raise X).
Proof. intros w. apply stepwise_nil. Qed.

Lemma respects_gets {X} (f : world -> X) : respects R (gets f).
Proof. intros w. apply stepwise_nil. Qed.

Lemma respects_check ok : respects R (check ok).
Proof. destruct ok; [apply respects_ret | apply respects_raise]. Qed.

Lemma respects_lift {X} (o : option X) : respects R (lift o).
Proof. destruct o; [apply respects_ret | apply respects_raise]. Qed.

Lemma respects_bind {X Y} (m : M X) (k : X -> M Y) :
  respects R m -> (forall x, respects R (k x)) -> respects R (bind m k).
Proof.
  intros Hm Hk w. specialize (Hm w). unfold bind, events, final in *.
  destruct (m w) as [[[x|] w1] e1]; simpl in *; [| exact Hm].
  specialize (Hk x w1). destruct (k x w1) as [[r w2] e2]; simpl in *.
  eapply stepwise_app; eassumption.
Qed.

Lemma respects_try {X} (body handler : M X) :
  respects R body -> respects R handler -> respects R (try_except body handler).
Proof.
  intros Hb Hh w. specialize (Hb w). unfold try_except, events, final in *.
  destruct (body w) as [[[x|] w1] e1]; simpl in *; [exact Hb |].
  specialize (Hh w1). destruct (handler w1) as [[r w2] e2]; simpl in *.
  eapply stepwise_app; eassumption.
Qed.

Lemma respects_emit ev : (forall w, R w [ev] w) -> respects R (emit ev).
Proof. intros H w. apply H. Qed.

Lemma respects_modify f : (forall w, R w [] (f w)) -> respects R (modify f).
Proof. intros H w. apply H. Qed.
End Rules.

#[export] Instance counted_stepwise t : Stepwise (counted t).
Proof.
  split; unfold counted, snapshots.
  - intros w. reflexivity.
  - intros w1 e1 w2 e2 w3 H1 H2. rewrite count_occ_app. lia.
Qed.

#[export] Instance grows_stepwise : Stepwise grows.
Proof.
  split; unfold grows.
  - intros w. reflexivity.
  - intros w1 e1 w2 e2 w3 H1 H2. etransitivity; eassumption.
Qed.

#[export] Instance quiet_stepwise bad : Stepwise (quiet bad).
Proof.
  split; unfold quiet.
  - intros w. split; [reflexivity | constructor].
  - intros w1 e1 w2 e2 w3 [-> H1] [-> H2]. split; [reflexivity |].
    apply Forall_app. split; assumption.
Qed.

(** ** The snapshot sink *)

Section Sink.
Context {num : Type} {A : Arith num}.
Variable names : gmap Z string.

(** [save_stone_image] always returns: whatever fails inside is logged.  It
    touches neither the registry nor the camera, and emits only events of
    its own. *)
Lemma save_stone_image_returns frame env w :
  let r := save_stone_image frame env w in
  value r = Ok tt
  /\ saved_stone_ids (final r) = saved_stone_ids w
  /\ camera (final r) = camera w
  /\ Forall sink_event (events r).
Proof.
  unfold save_stone_image, try_except, bind, gets, emit, check, modify, ret, raise,
    value, final, events.
  destruct w as [cam sv there fs]; simpl.
  destruct there; simpl;
    [| destruct (makedirs_ok env); simpl ];
    destruct (imwrite env); simpl;
    repeat split; repeat constructor.
Qed.

(** What the sink leaves on disk: the image under the name built from the
    clock when [imwrite] succeeds, nothing new otherwise. *)
Lemma save_stone_image_files frame env w :
  files (final (save_stone_image frame env w)) =
    if (dir_exists w || makedirs_ok env)
    then match imwrite env with
         | Written => <[ snapshot_name env := frame ]> (files w)
         | _ => files w
         end
    else files w.
Proof.
  unfold save_stone_image, try_except, bind, gets, emit, check, modify, ret, raise,
    final.
  destruct w as [cam sv there fs]; simpl.
  destruct there; simpl;
    [| destruct (makedirs_ok env); simpl ];
    destruct (imwrite env); reflexivity.
Qed.

(** The sink creates the destination directory when it is absent. *)
Lemma save_stone_image_makedirs frame env w :
  dir_exists w = false -> makedirs_ok env = true ->
  dir_exists (final (save_stone_image frame env w)) = true
  /\ Makedirs ∈ events (save_stone_image frame env w).
Proof.
  intros Hd Hm.
  unfold save_stone_image, try_except, bind, gets, emit, check, modify, ret, raise,
    final, events.
  destruct w as [cam sv there fs]; simpl in *. subst there. rewrite Hm. simpl.
  destruct (imwrite env); simpl; split; try reflexivity; apply list_elem_of_here.
Qed.

(** *** One instance *)

(** The three ways the body of the [for] loop can go: it raises before the
    decision at line 103 and has done nothing; or it has drawn and skips the
    snapshot; or it has drawn, calls the sink once and then records the
    track. *)
Lemma process_instance_cases ow oh (i : @instance num) frame w :
  let r := process_instance names ow oh i frame w in
  (~ drawable names ow oh i /\ value r = Raised /\ final r = w /\ events r = [])
  \/ (drawable names ow oh i
      /\ value r = Ok (frame ++ annotation names ow oh i)
      /\ ((~ stone names i \/ track_id i ∈ saved_stone_ids w)
          /\ final r = w /\ events r = []
          \/ (stone names i /\ (track_id i ∉ saved_stone_ids w)
              /\ final r =
                   add_saved (track_id i)
                     (final (save_stone_image (frame ++ annotation names ow oh i)
                               (sink i) w))
              /\ events r =
                   SaveStoneImage (track_id i)
                   :: events (save_stone_image (frame ++ annotation names ow oh i)
                                (sink i) w)
                   ++ [RegistryAdd (track_id i)]))).
Proof.
  unfold process_instance, drawable, stone, annotation, label_of.
  destruct (rescale ow oh (box i)) as [[[[x1 y1] x2] y2]|] eqn:Hr; simpl;
    [| left; repeat split; auto; intros [[? ?] _]; discriminate ].
  destruct (names !! cls i) as [label|] eqn:Hl;
    [| left; repeat split; auto; intros (_ & [? ?] & _); discriminate ].
  destruct (rectangle_ok i) eqn:Hk;
    [| left; repeat split; auto; intros (_ & _ & ? & _); discriminate ].
  destruct (putText_ok i) eqn:Ht;
    [| left; repeat split; auto; intros (_ & _ & _ & ?); discriminate ].
  right. split; [ repeat split; eauto |].
  unfold bind, lift, draw, check, gets, emit, modify, ret, value, final, events.
  simpl. rewrite <- app_assoc. simpl.
  destruct (is_stone label) eqn:Hs; simpl.
  - destruct (bool_decide (track_id i ∈ saved_stone_ids w)) eqn:Hin; simpl.
    + apply bool_decide_eq_true in Hin. split; [reflexivity |]. left. auto.
    + apply bool_decide_eq_false in Hin. split.
      * pose proof (save_stone_image_returns
                      (frame ++ [Rectangle (x1, y1) (x2, y2) (default (0, 255, 0) (colors !! label)) 2;
                                 PutText (label ++ ": " ++ format_2f (score i))
                                   (x1, y1 - 10) (default (0, 255, 0) (colors !! label)) 2])
                      (sink i) w) as (Hv & _).
        unfold value in Hv.
        destruct (save_stone_image _ (sink i) w) as [[[[]|] w1] e1]; simpl in *;
          [reflexivity | discriminate].
      * right. split; [eauto |]. split; [assumption |].
        pose proof (save_stone_image_returns
                      (frame ++ [Rectangle (x1, y1) (x2, y2) (default (0, 255, 0) (colors !! label)) 2;
                                 PutText (label ++ ": " ++ format_2f (score i))
                                   (x1, y1 - 10) (default (0, 255, 0) (colors !! label)) 2])
                      (sink i) w) as (Hv & _).
        unfold value in Hv.
        destruct (save_stone_image _ (sink i) w) as [[[[]|] w1] e1]; simpl in *;
          [| discriminate].
        rewrite app_nil_r. split; reflexivity.
  - split; [reflexivity |]. left. split; [| auto].
    left. intros (l' & Hl' & Hs'). congruence.
Qed.
End Sink.

(** ** The loop respects what its instances respect *)

Section Loop.
Context {num : Type} {A : Arith num}.
Variable names : gmap Z string.
Context (R : world -> list event -> world -> Prop) `{!Stepwise R}.

(** The instances under consideration. *)
Variable P : @instance num -> Prop.

(** Events other than those of a snapshot are neutral for [R]. *)
Hypothesis plain : forall ev w, ~ snapshot_event ev -> R w [ev] w.

Hypothesis per_instance :
  forall ow oh i frame, P i -> respects R (process_instance names ow oh i frame).

Lemma respects_for_instances ow oh l :
  Forall P l -> forall frame, respects R (for_instances names ow oh l frame).
Proof.
  induction 1 as [| i l Hi Hl IH]; intros frame; simpl.
  - apply respects_ret; assumption.
  - apply respects_bind; [assumption | auto | intros frame'; apply IH].
Qed.

Lemma respects_loop_body tk :
  Forall P (instances_of tk) -> respects R (loop_body names tk).
Proof.
  intros HP. unfold loop_body.
  apply respects_bind; [assumption | apply respects_emit; intros; apply plain; simpl; tauto |].
  intros _. destruct (read tk) as [| | oh ow].
  - apply respects_raise; assumption.
  - apply respects_bind; [assumption | apply respects_emit; intros; apply plain; simpl; tauto |].
    intros _. apply respects_ret; assumption.
  - repeat (apply respects_bind;
              [ assumption
              | first [ apply respects_emit; intros; apply plain; simpl; tauto
                      | apply respects_check; assumption ]
              | intros _ ]).
    apply respects_bind; [assumption | |].
    + unfold instances_of in HP. destruct (track tk);
        try (apply respects_ret; assumption).
      apply respects_for_instances; assumption.
    + intros frame.
      repeat (apply respects_bind;
                [ assumption
                | first [ apply respects_emit; intros; apply plain; simpl; tauto
                        | apply respects_check; assumption ]
                | intros _ ]).
      destruct (_ =? _); apply respects_ret; assumption.
Qed.

Lemma respects_iteration tk :
  Forall P (instances_of tk) -> respects R (iteration names tk).
Proof.
  intros HP. unfold iteration. apply respects_try; [assumption | |].
  - apply respects_loop_body; assumption.
  - apply respects_bind; [assumption | apply respects_emit; intros; apply plain; simpl; tauto |].
    intros _. apply respects_ret; assumption.
Qed.

Lemma respects_while_true ticks :
  Forall (fun tk => Forall P (instances_of tk)) ticks ->
  respects R (while_true names ticks).
Proof.
  induction 1 as [| tk ticks Htk Hticks IH]; simpl.
  - apply respects_ret; assumption.
  - apply respects_bind; [assumption | apply respects_iteration; assumption |].
    intros [|]; [exact IH | apply respects_ret; assumption].
Qed.

Lemma respects_process_frame ticks :
  Forall (fun tk => Forall P (instances_of tk)) ticks ->
  respects R (process_frame names ticks).
Proof.
  intros H. unfold process_frame.
  apply respects_bind; [assumption | apply respects_emit; intros; apply plain; simpl; tauto |].
  intros _. apply respects_while_true; assumption.
Qed.
End Loop.

(** ** The registry and the calls of the sink *)

Lemma snapshots_app t e1 e2 :
  snapshots t (e1 ++ e2) = (snapshots t e1 + snapshots t e2)%nat.
Proof. apply count_occ_app. Qed.

Lemma snapshots_cons_same t evs :
  snapshots t (SaveStoneImage t :: evs) = S (snapshots t evs).
Proof. apply count_occ_cons_eq. reflexivity. Qed.

Lemma snapshots_cons_other t ev evs :
  ev <> SaveStoneImage t -> snapshots t (ev :: evs) = snapshots t evs.
Proof. intros H. apply count_occ_cons_neq. exact H. Qed.

Lemma snapshots_sink t evs : Forall sink_event evs -> snapshots t evs = 0%nat.
Proof.
  induction 1 as [| ev evs Hev _ IH]; [reflexivity |].
  rewrite snapshots_cons_other; [exact IH |].
  intros ->. destruct Hev.
Qed.

Lemma snapshots_member t evs : (0 < snapshots t evs)%nat <-> SaveStoneImage t ∈ evs.
Proof.
  unfold snapshots. rewrite list_elem_of_In.
  rewrite (count_occ_In event_eq_dec). unfold gt. reflexivity.
Qed.

Lemma marked_add_same t w : marked t (add_saved t w) = 1%nat.
Proof. unfold marked. rewrite bool_decide_eq_true_2; [reflexivity | set_solver]. Qed.

Lemma marked_add_other t t' w : t <> t' -> marked t (add_saved t' w) = marked t w.
Proof.
  intros Hne. unfold marked. simpl.
  destruct (decide (t ∈ saved_stone_ids w)) as [Hin | Hout].
  - rewrite !bool_decide_eq_true_2; [reflexivity | assumption |].
    apply elem_of_union_r. assumption.
  - rewrite !bool_decide_eq_false_2; [reflexivity | assumption |].
    intros [H1 | H2]%elem_of_union; [| tauto].
    apply elem_of_singleton in H1. congruence.
Qed.

Lemma marked_absent t w : t ∉ saved_stone_ids w -> marked t w = 0%nat.
Proof. intros H. unfold marked. rewrite bool_decide_eq_false_2; [reflexivity | exact H]. Qed.

Lemma marked_present t w : t ∈ saved_stone_ids w <-> marked t w = 1%nat.
Proof.
  unfold marked. destruct (bool_decide (t ∈ saved_stone_ids w)) eqn:E.
  - apply bool_decide_eq_true in E. tauto.
  - apply bool_decide_eq_false in E. split; [tauto | discriminate].
Qed.

Lemma marked_same_registry t w w' :
  saved_stone_ids w' = saved_stone_ids w -> marked t w' = marked t w.
Proof. unfold marked. intros ->. reflexivity. Qed.

Section Registry.
Context {num : Type} {A : Arith num}.
Variable names : gmap Z string.

Lemma process_instance_counted t ow oh (i : @instance num) frame :
  respects (counted t) (process_instance names ow oh i frame).
Proof.
  intros w. unfold counted.
  destruct (process_instance_cases names ow oh i frame w)
    as [(_ & _ & -> & ->) | (_ & _ & [(_ & -> & ->) | (_ & Hout & -> & ->)])];
    try reflexivity.
  destruct (save_stone_image_returns (frame ++ annotation names ow oh i) (sink i) w)
    as (_ & Hsv & _ & Hev).
  pose proof (snapshots_sink t _ Hev) as H0.
  destruct (decide (track_id i = t)) as [E | NE].
  - subst t. rewrite snapshots_cons_same, snapshots_app, H0.
    rewrite snapshots_cons_other by discriminate.
    rewrite marked_add_same. rewrite (marked_absent _ w) by assumption.
    simpl. lia.
  - rewrite snapshots_cons_other by congruence.
    rewrite snapshots_app, H0, snapshots_cons_other by discriminate.
    rewrite marked_add_other by congruence.
    rewrite (marked_same_registry t w _ Hsv). simpl. lia.
Qed.

Lemma process_instance_grows ow oh (i : @instance num) frame :
  respects grows (process_instance names ow oh i frame).
Proof.
  intros w. unfold grows.
  destruct (process_instance_cases names ow oh i frame w)
    as [(_ & _ & -> & _) | (_ & _ & [(_ & -> & _) | (_ & _ & -> & _)])];
    try reflexivity.
  destruct (save_stone_image_returns (frame ++ annotation names ow oh i) (sink i) w)
    as (_ & Hsv & _). simpl. rewrite Hsv. apply union_subseteq_r.
Qed.

Lemma every_instance (ticks : list (@tick num)) :
  Forall (fun tk => Forall (fun _ => True) (instances_of tk)) ticks.
Proof. apply Forall_forall. intros tk _. apply Forall_forall. auto. Qed.

Lemma plain_counted t ev w : ~ snapshot_event ev -> counted t w [ev] w.
Proof.
  intros H. unfold counted. rewrite snapshots_cons_other; [reflexivity |].
  intros ->. apply H. exact I.
Qed.

(** Along any run of the loop, from any state: the sink is called for [t]
    exactly when [t] enters the registry. *)
Lemma while_true_counted t ticks : respects (counted t) (while_true names ticks).
Proof.
  apply (respects_while_true names (counted t) (fun _ => True)).
  - apply plain_counted.
  - intros. apply process_instance_counted.
  - apply every_instance.
Qed.

Lemma while_true_grows ticks : respects grows (while_true names ticks).
Proof.
  apply (respects_while_true names grows (fun _ => True)).
  - intros ev w _. unfold grows. reflexivity.
  - intros. apply process_instance_grows.
  - apply every_instance.
Qed.

Lemma iteration_counted t tk : respects (counted t) (iteration names tk).
Proof.
  apply (respects_iteration names (counted t) (fun _ => True)).
  - apply plain_counted.
  - intros. apply process_instance_counted.
  - apply Forall_forall. auto.
Qed.

Lemma iteration_grows tk : respects grows (iteration names tk).
Proof.
  apply (respects_iteration names grows (fun _ => True)).
  - intros ev w _. unfold grows. reflexivity.
  - intros. apply process_instance_grows.
  - apply Forall_forall. auto.
Qed.

(** [process_frame] is the loop after one neutral event. *)
Lemma process_frame_unfold ticks w :
  process_frame names ticks w =
    (value (while_true names ticks w), final (while_true names ticks w),
     Enter_process_frame :: events (while_true names ticks w)).
Proof.
  unfold process_frame, bind, emit, value, final, events.
  destruct (while_true names ticks w) as [[r w'] e]. reflexivity.
Qed.
End Registry.

(** ** The shape of the loop *)

Ltac unfold_monad :=
  unfold try_except, bind, emit, check, gets, modify, lift, ret, raise,
    value, final, events in *.

Section Shape.
Context {num : Type} {A : Arith num}.
Variable names : gmap Z string.

(** No exception leaves an iteration. *)
Lemma iteration_returns (tk : @tick num) w :
  exists c, value (iteration names tk w) = Ok c.
Proof.
  unfold iteration. unfold try_except at 1. unfold value.
  destruct (loop_body names tk w) as [[[c|] w1] e1]; simpl; eauto.
Qed.

(** Whether the body raised or not, what an iteration leaves is what its
    [try] block left, and its events are those of the block, followed by the
    error log when it raised. *)
Lemma iteration_of_body (tk : @tick num) w :
  let b := loop_body names tk w in
  iteration names tk w =
    match value b with
    | Ok c => (Ok c, final b, events b)
    | Raised => (Ok Continue, final b, events b ++ [Log ErrProcessFrame])
    end.
Proof.
  unfold iteration. unfold try_except at 1. unfold value, final, events.
  destruct (loop_body names tk w) as [[[c|] w1] e1]; reflexivity.
Qed.

(** The [try] block, case by case. *)
Lemma loop_body_cases (tk : @tick num) w :
  let b := loop_body names tk w in
  match read tk with
  | ReadRaises => b = (Raised, w, [CameraRead])
  | ReadFailed => b = (Ok Continue, w, [CameraRead; Log WarnCaptureFailed])
  | ReadOk oh ow =>
      match track tk with
      | ResizeRaises => b = (Raised, w, [CameraRead; Resize])
      | TrackRaises => b = (Raised, w, [CameraRead; Resize; Track])
      | NoTracks =>
          b = (if imshow_ok tk
               then (Ok (if stop_key tk then Break else Continue), w,
                     [CameraRead; Resize; Track; Imshow []; WaitKey])
               else (Raised, w, [CameraRead; Resize; Track; Imshow []]))
      | Tracks l =>
          let f := for_instances names ow oh l [] w in
          b = match value f with
              | Raised => (Raised, final f, [CameraRead; Resize; Track] ++ events f)
              | Ok frame =>
                  if imshow_ok tk
                  then (Ok (if stop_key tk then Break else Continue), final f,
                        [CameraRead; Resize; Track] ++ events f
                        ++ [Imshow frame; WaitKey])
                  else (Raised, final f,
                        [CameraRead; Resize; Track] ++ events f ++ [Imshow frame])
              end
      end
  end.
Proof.
  unfold loop_body, stop_key. destruct (read tk) as [| | oh ow]; try reflexivity.
  destruct (track tk) as [| | | l]; try reflexivity.
  - unfold_monad. simpl. destruct (imshow_ok tk); simpl; [| reflexivity].
    destruct (_ =? _); reflexivity.
  - unfold_monad. simpl.
    destruct (for_instances names ow oh l [] w) as [[[frame|] w1] e1]; simpl;
      [| reflexivity].
    destruct (imshow_ok tk); simpl; [| reflexivity].
    destruct (_ =? _); reflexivity.
Qed.

(** An iteration that does not see the stop key goes on. *)
Lemma iteration_continues (tk : @tick num) w :
  stop_key tk = false -> value (iteration names tk w) = Ok Continue.
Proof.
  intros Hk. rewrite iteration_of_body.
  pose proof (loop_body_cases tk w) as H. simpl in H.
  destruct (read tk) as [| | oh ow]; try (rewrite H; reflexivity).
  destruct (track tk) as [| | | l]; try (rewrite H; reflexivity).
  - rewrite H, Hk. destruct (imshow_ok tk); reflexivity.
  - rewrite H, Hk.
    destruct (value (for_instances names ow oh l [] w)); [| reflexivity].
    destruct (imshow_ok tk); reflexivity.
Qed.

Lemma while_true_returns (ticks : list (@tick num)) w :
  exists s, value (while_true names ticks w) = Ok s.
Proof.
  revert w. induction ticks as [| tk ticks IH]; intros w; simpl.
  - exists Running. reflexivity.
  - destruct (iteration_returns tk w) as [c Hc].
    unfold bind, value in *.
    destruct (iteration names tk w) as [[r w1] e1]; simpl in Hc; subst r.
    destruct c.
    + destruct (IH w1) as [s Hs].
      destruct (while_true names ticks w1) as [[r2 w2] e2]; simpl in *. eauto.
    + simpl. eauto.
Qed.

(** While no stop key is seen the loop keeps running. *)
Lemma while_true_running (ticks : list (@tick num)) w :
  Forall (fun tk => stop_key tk = false) ticks ->
  value (while_true names ticks w) = Ok Running.
Proof.
  intros H. revert w. induction H as [| tk ticks Hk _ IH]; intros w; simpl.
  - reflexivity.
  - pose proof (iteration_continues tk w Hk) as Hc.
    unfold bind, value in *.
    destruct (iteration names tk w) as [[r w1] e1]; simpl in Hc; subst r.
    specialize (IH w1).
    destruct (while_true names ticks w1) as [[r2 w2] e2]; simpl in *. exact IH.
Qed.

(** A loop that is still running after [pre] goes on with what follows. *)
Lemma while_true_app (pre rest : list (@tick num)) w :
  value (while_true names pre w) = Ok Running ->
  while_true names (pre ++ rest) w =
    (value (while_true names rest (final (while_true names pre w))),
     final (while_true names rest (final (while_true names pre w))),
     events (while_true names pre w)
     ++ events (while_true names rest (final (while_true names pre w)))).
Proof.
  revert w. induction pre as [| tk pre IH]; intros w Hrun; simpl in *.
  - unfold ret, value, final, events. simpl.
    destruct (while_true names rest w) as [[r w1] e1]. reflexivity.
  - unfold bind, value, final, events in *.
    destruct (iteration names tk w) as [[[[|]|] w1] e1]; simpl in *;
      try discriminate.
    specialize (IH w1).
    destruct (while_true names pre w1) as [[r2 w2] e2]; simpl in *.
    rewrite (IH Hrun).
    destruct (while_true names rest w2) as [[r3 w3] e3]; simpl.
    rewrite app_assoc. reflexivity.
Qed.
End Shape.

(** ** Where a snapshot comes from *)

#[export] Instance enters_only_if_stepwise t Q : Stepwise (enters_only_if t Q).
Proof.
  split; unfold enters_only_if.
  - intros w H. left. exact H.
  - intros w1 e1 w2 e2 w3 H1 H2 H3. destruct (H2 H3) as [H | H]; auto.
Qed.

#[export] Instance snapshot_only_if_stepwise t Q : Stepwise (snapshot_only_if t Q).
Proof.
  split; unfold snapshot_only_if.
  - intros w H. inversion H.
  - intros w1 e1 w2 e2 w3 H1 H2 [H | H]%elem_of_app; auto.
Qed.

Section Origin.
Context {num : Type} {A : Arith num}.
Variable names : gmap Z string.

Lemma process_instance_enters t Q ow oh (i : @instance num) frame :
  (track_id i = t -> stone names i -> Q) ->
  respects (enters_only_if t Q) (process_instance names ow oh i frame).
Proof.
  intros HQ w. unfold enters_only_if.
  destruct (process_instance_cases names ow oh i frame w)
    as [(_ & _ & -> & _) | (_ & _ & [(_ & -> & _) | (Hs & _ & -> & _)])];
    auto.
  destruct (save_stone_image_returns (frame ++ annotation names ow oh i) (sink i) w)
    as (_ & Hsv & _). simpl. rewrite Hsv.
  intros [H | H]%elem_of_union; [| auto].
  apply elem_of_singleton in H. right. apply HQ; [congruence | exact Hs].
Qed.

Lemma process_instance_snapshot t Q ow oh (i : @instance num) frame :
  (track_id i = t -> stone names i -> Q) ->
  respects (snapshot_only_if t Q) (process_instance names ow oh i frame).
Proof.
  intros HQ w. unfold snapshot_only_if.
  destruct (process_instance_cases names ow oh i frame w)
    as [(_ & _ & _ & ->) | (_ & _ & [(_ & _ & ->) | (Hs & _ & _ & ->)])];
    try (intros H; inversion H; fail).
  destruct (save_stone_image_returns (frame ++ annotation names ow oh i) (sink i) w)
    as (_ & _ & _ & Hev).
  intros H. apply snapshots_member in H.
  destruct (decide (track_id i = t)) as [E | NE]; [auto |].
  rewrite snapshots_cons_other, snapshots_app, (snapshots_sink _ _ Hev) in H
    by congruence.
  rewrite snapshots_cons_other in H by discriminate.
  unfold snapshots in H. simpl in H. lia.
Qed.

(** The instances of the ticks are instances shown by the ticks. *)
Lemma shown_instances t (ticks : list (@tick num)) :
  Forall (fun tk => Forall (fun i => track_id i = t -> stone names i ->
                                     Exists (shows_stone names t) ticks)
                      (instances_of tk)) ticks.
Proof.
  apply Forall_forall. intros tk Htk. apply Forall_forall. intros i Hi Ht Hs.
  apply Exists_exists. exists tk. split; [exact Htk |].
  exists i. auto.
Qed.

(** A track that enters the registry during a run was shown with a flagged
    label by one of its ticks. *)
Lemma registered_was_shown t (ticks : list (@tick num)) w :
  t ∈ saved_stone_ids (final (while_true names ticks w)) ->
  t ∈ saved_stone_ids w \/ Exists (shows_stone names t) ticks.
Proof.
  apply (respects_while_true names
           (enters_only_if t (Exists (shows_stone names t) ticks))
           (fun i => track_id i = t -> stone names i ->
                     Exists (shows_stone names t) ticks)).
  - intros ev w' _ H. left. exact H.
  - intros. apply process_instance_enters. assumption.
  - apply shown_instances.
Qed.

(** The sink is only called for a track that one of the ticks shows with a
    flagged label. *)
Lemma snapshot_was_shown t (ticks : list (@tick num)) w :
  SaveStoneImage t ∈ events (while_true names ticks w) ->
  Exists (shows_stone names t) ticks.
Proof.
  apply (respects_while_true names
           (snapshot_only_if t (Exists (shows_stone names t) ticks))
           (fun i => track_id i = t -> stone names i ->
                     Exists (shows_stone names t) ticks)).
  - intros ev w' Hev H. apply list_elem_of_singleton in H. subst ev.
    exfalso. apply Hev. exact I.
  - intros. apply process_instance_snapshot. assumption.
  - apply shown_instances.
Qed.

(** *** A sound frame records every flagged track it shows *)

Lemma for_instances_grows ow oh (l : list (@instance num)) frame :
  respects grows (for_instances names ow oh l frame).
Proof.
  apply (respects_for_instances names grows (fun _ => True)).
  - intros. apply process_instance_grows.
  - apply Forall_forall. auto.
Qed.

Lemma for_instances_sound ow oh (l : list (@instance num)) frame w :
  Forall (drawable names ow oh) l ->
  let r := for_instances names ow oh l frame w in
  value r = Ok (frame ++ concat (map (annotation names ow oh) l))
  /\ forall i, i ∈ l -> stone names i -> track_id i ∈ saved_stone_ids (final r).
Proof.
  intros H. revert frame w.
  induction H as [| i l Hi _ IH]; intros frame w; simpl.
  - unfold ret, value, final. simpl. rewrite app_nil_r. split; [reflexivity |].
    intros i Hi. inversion Hi.
  - pose proof (process_instance_cases names ow oh i frame w) as Hc.
    pose proof (process_instance_grows names ow oh i frame w) as Hg.
    simpl in Hc. unfold grows in Hg.
    assert (value (process_instance names ow oh i frame w)
            = Ok (frame ++ annotation names ow oh i)
            /\ (stone names i ->
                track_id i ∈ saved_stone_ids
                               (final (process_instance names ow oh i frame w))))
      as [Hv Hin].
    { destruct Hc as [(Hn & _) | (_ & Hv & [(Hskip & Hw & _) | (_ & _ & Hw & _)])].
      - contradiction.
      - split; [exact Hv |]. rewrite Hw. intros Hs. destruct Hskip; tauto.
      - split; [exact Hv |]. rewrite Hw. intros _. simpl.
        apply elem_of_union_l, elem_of_singleton. reflexivity. }
    clear Hc.
    unfold bind. unfold value, final in *.
    destruct (process_instance names ow oh i frame w) as [[r1 w1] e1].
    simpl in *. subst r1.
    specialize (IH (frame ++ annotation names ow oh i) w1).
    pose proof (for_instances_grows ow oh l (frame ++ annotation names ow oh i) w1)
      as Hg2. unfold grows, final in Hg2.
    destruct (for_instances names ow oh l (frame ++ annotation names ow oh i) w1)
      as [[r2 w2] e2]. simpl in *.
    destruct IH as [IH1 IH2]. split.
    + rewrite IH1, app_assoc. reflexivity.
    + intros j [-> | Hj]%elem_of_cons Hs; [| auto].
      apply Hg2. auto.
Qed.

(** What a sound tick leaves in the registry is what its [for] loop left. *)
Lemma iteration_registry (tk : @tick num) w oh ow l :
  read tk = ReadOk oh ow -> track tk = Tracks l ->
  final (iteration names tk w) = final (for_instances names ow oh l [] w).
Proof.
  intros Hr Ht. rewrite iteration_of_body.
  pose proof (loop_body_cases names tk w) as H. simpl in H.
  rewrite Hr, Ht in H. rewrite H.
  destruct (value (for_instances names ow oh l [] w)); [| reflexivity].
  destruct (imshow_ok tk); reflexivity.
Qed.

(** *** The [for] loop up to a failure *)

(** The [for] loop over a list whose front can be drawn runs the front to its
    end, and the rest from the canvas and the state the front leaves. *)
Lemma for_instances_app ow oh (l1 l2 : list (@instance num)) frame w :
  Forall (drawable names ow oh) l1 ->
  for_instances names ow oh (l1 ++ l2) frame w =
    (value (for_instances names ow oh l2
              (frame ++ concat (map (annotation names ow oh) l1))
              (final (for_instances names ow oh l1 frame w))),
     final (for_instances names ow oh l2
              (frame ++ concat (map (annotation names ow oh) l1))
              (final (for_instances names ow oh l1 frame w))),
     events (for_instances names ow oh l1 frame w)
     ++ events (for_instances names ow oh l2
                  (frame ++ concat (map (annotation names ow oh) l1))
                  (final (for_instances names ow oh l1 frame w)))).
Proof.
  intros H. revert frame w. induction H as [| i l Hi _ IH]; intros frame w.
  - cbn [app for_instances map concat]. rewrite app_nil_r.
    unfold ret, value, final, events. cbn [fst snd app].
    destruct (for_instances names ow oh l2 frame w) as [[r w1] e]. reflexivity.
  - cbn [app for_instances map concat]. unfold bind.
    pose proof (process_instance_cases names ow oh i frame w) as Hc. simpl in Hc.
    destruct Hc as [(Hn & _) | (_ & Hv & _)]; [contradiction |].
    unfold value in Hv.
    destruct (process_instance names ow oh i frame w) as [[r1 w1] e1].
    cbn [fst snd] in Hv. subst r1.
    rewrite (IH (frame ++ annotation names ow oh i) w1).
    rewrite <- (app_assoc frame).
    unfold value, final, events.
    destruct (for_instances names ow oh l (frame ++ annotation names ow oh i) w1)
      as [[ra wa] ea].
    cbn [fst snd].
    destruct (for_instances names ow oh l2 _ wa) as [[rb wb] eb].
    cbn [fst snd]. rewrite app_assoc.
    destruct ra; reflexivity.
Qed.

(** An instance with a flagged label that the [for] loop reaches is in the
    registry when the loop is left. *)
Lemma reached_instance_records ow oh (l1 : list (@instance num)) i l2 frame w :
  Forall (drawable names ow oh) l1 -> drawable names ow oh i -> stone names i ->
  track_id i ∈ saved_stone_ids
                 (final (for_instances names ow oh (l1 ++ i :: l2) frame w)).
Proof.
  intros H1 Hi Hs.
  rewrite (for_instances_app ow oh l1 (i :: l2) frame w H1).
  unfold final at 1. cbn [fst snd].
  set (f1 := frame ++ concat (map (annotation names ow oh) l1)).
  set (w1 := final (for_instances names ow oh l1 frame w)).
  change (i :: l2) with ([i] ++ l2).
  assert (Forall (drawable names ow oh) [i]) as Hd by (constructor; [exact Hi | constructor]).
  rewrite (for_instances_app ow oh [i] l2 f1 w1 Hd).
  unfold final at 1. cbn [fst snd].
  apply (for_instances_grows ow oh l2).
  apply (for_instances_sound ow oh [i] f1 w1 Hd); [apply list_elem_of_here | exact Hs].
Qed.

Lemma reaches_tick_records t (tk : @tick num) w :
  reaches_stone names t tk ->
  t ∈ saved_stone_ids (final (iteration names tk w)).
Proof.
  intros (oh & ow & l1 & i & l2 & Hr & Ht & H1 & Hi & Hid & Hs).
  rewrite (iteration_registry tk w oh ow (l1 ++ i :: l2) Hr Ht). subst t.
  apply reached_instance_records; assumption.
Qed.

(** A track enters the registry only through an instance the [for] loop
    reaches with a flagged label. *)
Lemma for_instances_not_reached t ow oh (l : list (@instance num)) frame w :
  (t ∉ saved_stone_ids w) ->
  (forall l1 i l2, l = l1 ++ i :: l2 -> Forall (drawable names ow oh) l1 ->
                   drawable names ow oh i -> track_id i = t -> ~ stone names i) ->
  t ∉ saved_stone_ids (final (for_instances names ow oh l frame w)).
Proof.
  revert frame w. induction l as [| i l IH]; intros frame w Hn Hl.
  - exact Hn.
  - cbn [for_instances]. unfold bind.
    pose proof (process_instance_cases names ow oh i frame w) as Hc. simpl in Hc.
    pose proof (save_stone_image_returns (frame ++ annotation names ow oh i) (sink i) w)
      as (_ & Hsv & _).
    unfold value, final, events in Hc |- *.
    destruct (process_instance names ow oh i frame w) as [[r1 w1] e1].
    cbn [fst snd] in Hc.
    destruct Hc as [(_ & -> & -> & _) | (Hd & -> & Hc)]; [exact Hn |].
    assert (t ∉ saved_stone_ids w1) as Hn1.
    { destruct Hc as [(_ & -> & _) | (Hs & _ & -> & _)]; [exact Hn |].
      simpl. unfold final in Hsv. rewrite Hsv.
      intros [H | H]%elem_of_union; [| exact (Hn H)].
      apply elem_of_singleton in H.
      exact (Hl [] i l eq_refl (List.Forall_nil _) Hd (eq_sym H) Hs). }
    specialize (IH (frame ++ annotation names ow oh i) w1 Hn1).
    destruct (for_instances names ow oh l (frame ++ annotation names ow oh i) w1)
      as [[r2 w2] e2].
    cbn [fst snd] in IH |- *. apply IH.
    intros l1 j l2 -> Hl1 Hj Ht.
    apply (Hl (i :: l1) j l2); [reflexivity | constructor; assumption | assumption ..].
Qed.

Lemma iteration_not_reached t (tk : @tick num) w :
  ~ reaches_stone names t tk -> (t ∉ saved_stone_ids w) ->
  t ∉ saved_stone_ids (final (iteration names tk w)).
Proof.
  intros Hnr Hn.
  destruct (read tk) as [| | oh ow] eqn:Hr;
    [| | destruct (track tk) as [| | | l] eqn:Ht].
  6: { rewrite (iteration_registry tk w oh ow l Hr Ht).
       apply for_instances_not_reached; [exact Hn |].
       intros l1 i l2 -> H1 Hi Hid Hs. apply Hnr.
       exists oh, ow, l1, i, l2.
       exact (conj Hr (conj Ht (conj H1 (conj Hi (conj Hid Hs))))). }
  all: rewrite iteration_of_body;
    pose proof (loop_body_cases names tk w) as H; simpl in H;
    rewrite Hr in H; try rewrite Ht in H; rewrite H;
    try destruct (imshow_ok tk); exact Hn.
Qed.

(** Before any tick reaches [t] with a flagged label, [t] is not in the
    registry. *)
Lemma not_reached_not_saved t (pre : list (@tick num)) w :
  Forall (fun tk => ~ reaches_stone names t tk) pre ->
  (t ∉ saved_stone_ids w) ->
  t ∉ saved_stone_ids (final (while_true names pre w)).
Proof.
  intros H. revert w. induction H as [| tk pre Hn _ IH]; intros w Hw.
  - exact Hw.
  - cbn [while_true]. unfold bind.
    pose proof (iteration_not_reached t tk w Hn Hw) as H1. unfold final in H1 |- *.
    destruct (iteration names tk w) as [[[[|]|] w1] e1]; cbn [fst snd] in *;
      try exact H1.
    specialize (IH w1 H1).
    destruct (while_true names pre w1) as [[r2 w2] e2]. exact IH.
Qed.
End Origin.

(** ** One snapshot per track *)

Section Once.
Context {num : Type} {A : Arith num}.
Variable names : gmap Z string.

Lemma while_true_cons_registry (tk : @tick num) rest w :
  saved_stone_ids (final (iteration names tk w))
  ⊆ saved_stone_ids (final (while_true names (tk :: rest) w)).
Proof.
  simpl. unfold bind, final.
  destruct (iteration names tk w) as [[[[|]|] w1] e1]; simpl; try reflexivity.
  pose proof (while_true_grows names rest w1) as H. unfold grows, final in H.
  destruct (while_true names rest w1) as [[r2 w2] e2]. exact H.
Qed.

Lemma marked_le t w : (marked t w <= 1)%nat.
Proof. unfold marked. destruct (bool_decide _); lia. Qed.

Lemma fresh_unmarked t dir : marked t (fresh dir) = 0%nat.
Proof. apply marked_absent. simpl. apply not_elem_of_empty. Qed.

(** Before any tick reaches [t] with a flagged label, the sink has not been
    called for [t] and [t] is not in the registry. *)
Lemma not_reached_no_snapshot t (pre : list (@tick num)) dir :
  Forall (fun tk => ~ reaches_stone names t tk) pre ->
  snapshots t (events (while_true names pre (fresh dir))) = 0%nat
  /\ marked t (final (while_true names pre (fresh dir))) = 0%nat.
Proof.
  intros Hpre.
  assert (marked t (final (while_true names pre (fresh dir))) = 0%nat) as Hm.
  { apply marked_absent. apply not_reached_not_saved; [exact Hpre |].
    simpl. apply not_elem_of_empty. }
  split; [| exact Hm].
  pose proof (while_true_counted names t pre (fresh dir)) as Hc.
  unfold counted in Hc. rewrite Hm, fresh_unmarked in Hc. lia.
Qed.

(** C1, as the code has it.  In a run of [process_frame], from any state, the
    snapshot sink is called at most once for every track id, and not at all
    for a track that is already in the registry; the registry only grows, so
    a track is never removed from it.  In a session, that is a run from the
    state [__init__] leaves, the sink is called for the track [t] in the
    first frame in which the [for] loop reaches an instance of [t] with a
    flagged label, that is, in which that instance and those before it in the
    frame are rescaled, labelled and drawn without an exception: the sink has
    not been called for [t] before that frame, whatever the earlier frames
    showed, is called for [t] during it, and is not called for [t] again
    however the session goes on. *)
Theorem snapshot_once_per_track :
  (forall (ticks : list (@tick num)) w t,
      (snapshots t (events (process_frame names ticks w)) <= 1)%nat
      /\ (t ∈ saved_stone_ids w ->
          snapshots t (events (process_frame names ticks w)) = 0%nat))
  /\ (forall (ticks : list (@tick num)) w,
         saved_stone_ids w ⊆ saved_stone_ids (final (process_frame names ticks w)))
  /\ (forall (pre : list (@tick num)) tk post dir t,
         Forall (fun tk' => ~ reaches_stone names t tk') pre ->
         Forall (fun tk' => stop_key tk' = false) pre ->
         reaches_stone names t tk ->
         snapshots t (events (process_frame names pre (fresh dir))) = 0%nat
         /\ snapshots t (events (process_frame names (pre ++ [tk]) (fresh dir))) = 1%nat
         /\ snapshots t (events (process_frame names (pre ++ tk :: post) (fresh dir)))
            = 1%nat).
Proof.
  split; [| split].
  - intros ticks w t.
    assert (snapshots t (events (process_frame names ticks w))
            = snapshots t (events (while_true names ticks w))) as ->.
    { rewrite process_frame_unfold. unfold events at 1. cbn [snd].
      apply snapshots_cons_other. discriminate. }
    pose proof (while_true_counted names t ticks w) as Hc.
    unfold counted in Hc.
    pose proof (marked_le t (final (while_true names ticks w))).
    split; [lia |].
    intros Hin. apply marked_present in Hin. lia.
  - intros ticks w. rewrite process_frame_unfold. unfold final at 1. cbn [fst snd].
    apply (while_true_grows names ticks w).
  - intros pre tk post dir t Hpre Hkey Hreach.
    destruct (not_reached_no_snapshot t pre dir Hpre) as [H0 Hm].
    assert (forall rest,
               snapshots t (events (process_frame names (pre ++ tk :: rest) (fresh dir)))
               = 1%nat) as Hrest.
    { intros rest. rewrite process_frame_unfold. unfold events at 1. cbn [snd].
      rewrite snapshots_cons_other by discriminate.
      rewrite (while_true_app names pre (tk :: rest) (fresh dir))
        by (apply while_true_running; exact Hkey).
      unfold events at 1. cbn [snd]. rewrite snapshots_app, H0. cbn [Nat.add].
      set (w1 := final (while_true names pre (fresh dir))) in *.
      pose proof (while_true_counted names t (tk :: rest) w1) as Hc.
      unfold counted in Hc. rewrite Hm in Hc.
      assert (marked t (final (while_true names (tk :: rest) w1)) = 1%nat) as H1.
      { apply marked_present. apply while_true_cons_registry.
        apply reaches_tick_records; assumption. }
      lia. }
    split; [| split].
    + rewrite process_frame_unfold. unfold events at 1. cbn [snd].
      rewrite snapshots_cons_other by discriminate. exact H0.
    + apply Hrest.
    + apply Hrest.
Qed.
End Once.

(** On the sample installation, in binary32: the first tick shows track 5 as
    a stone behind an instance of a class the model has no name for, the
    second tick shows it alone and is the first to reach it, the third shows
    it again. *)
Lemma snapshot_once_per_track_witness :
  let stone5 us := Sample.seen32 2 (81 # 100) 5 (Sample.sink_at us Written) in
  let pre := [Sample.frame32
                [Sample.seen32 9 (1 # 2) 8 (Sample.sink_at 0 Written); stone5 1000] (-1)] in
  let tk := Sample.frame32 [stone5 2000] (-1) in
  let post := [Sample.frame32 [stone5 3000] (-1)] in
  Forall (fun tk' => ~ @reaches_stone _ Float.binary32 Sample.names 5 tk') pre
  /\ Forall (fun tk' => stop_key tk' = false) pre
  /\ @reaches_stone _ Float.binary32 Sample.names 5 tk
  /\ snapshots 5 (events (@process_frame _ Float.binary32 Sample.names pre (fresh false)))
     = 0%nat
  /\ snapshots 5 (events (@process_frame _ Float.binary32 Sample.names (pre ++ [tk])
                            (fresh false))) = 1%nat
  /\ snapshots 5 (events (@process_frame _ Float.binary32 Sample.names (pre ++ tk :: post)
                            (fresh false))) = 1%nat.
Proof.
  intros stone5 pre tk post.
  assert (Forall (fun tk' => ~ @reaches_stone _ Float.binary32 Sample.names 5 tk') pre)
    as H1.
  { repeat constructor.
    intros (oh & ow & l1 & i & l2 & Hr & Ht & Hl1 & Hi & Hid & Hs).
    injection Ht as Ht.
    destruct l1 as [| j l1].
    - injection Ht as <- _. discriminate Hid.
    - injection Ht as <- _. apply Forall_cons in Hl1 as [(_ & [x Hx] & _) _].
      discriminate Hx. }
  assert (Forall (fun tk' : @tick spec_float => stop_key tk' = false) pre) as H2.
  { repeat constructor. }
  assert (@reaches_stone _ Float.binary32 Sample.names 5 tk) as H3.
  { exists 1080, 1980, [], (stone5 2000), [].
    repeat split; try constructor; try (eexists; vm_compute; reflexivity).
    exists "PEDRA"%string. split; vm_compute; reflexivity. }
  repeat (split; [assumption |]).
  exact (proj2 (proj2 (@snapshot_once_per_track _ Float.binary32 Sample.names))
           pre tk post false 5 H1 H2 H3).
Defined.

(** The first frame in which a track is flagged is not always the frame of
    its snapshot.  In the first tick track 5 is a stone, but the instance
    before it in the frame has a class the model has no name for: the label
    lookup raises, the handler of the loop logs the error, and the stone is
    neither drawn nor saved.  The sink is called for track 5 in the second
    tick. *)
Lemma first_flagged_frame_without_snapshot :
  let stone5 us := Sample.seen32 2 (81 # 100) 5 (Sample.sink_at us Written) in
  let f1 := Sample.frame32
              [Sample.seen32 9 (1 # 2) 8 (Sample.sink_at 0 Written); stone5 1000] (-1) in
  let f2 := Sample.frame32 [stone5 2000] (-1) in
  let r1 := @process_frame _ Float.binary32 Sample.names [f1] (fresh false) in
  let r2 := @process_frame _ Float.binary32 Sample.names [f1; f2] (fresh false) in
  shows_stone Sample.names 5 f1
  /\ events r1 = [Enter_process_frame; CameraRead; Resize; Track; Log ErrProcessFrame]
  /\ snapshots 5 (events r1) = 0%nat
  /\ marked 5 (final r1) = 0%nat
  /\ snapshots 5 (events (@iteration _ Float.binary32 Sample.names f2 (final r1))) = 1%nat
  /\ snapshots 5 (events r2) = 1%nat.
Proof.
  intros stone5 f1 f2 r1 r2. split.
  - exists (stone5 1000). split; [apply list_elem_of_further, list_elem_of_here |].
    split; [reflexivity |].
    exists "PEDRA"%string. split; vm_compute; reflexivity.
  - repeat split; vm_compute; reflexivity.
Qed.

(** ** The registry and a failed write *)

Section Marking.
Context {num : Type} {A : Arith num}.
Variable names : gmap Z string.

(** The image the sink is given is the only one it writes. *)
Lemma save_stone_image_writes frame env w name f :
  Imwrite name f ∈ events (save_stone_image frame env w) ->
  name = snapshot_name env /\ f = frame.
Proof.
  unfold save_stone_image. unfold_monad.
  destruct w as [cam sv there fs]; simpl.
  destruct there; simpl; [| destruct (makedirs_ok env); simpl ];
    destruct (imwrite env); simpl; intros H;
    repeat (apply elem_of_cons in H as [H | H]; [try discriminate H |]);
    try (inversion H; fail);
    injection H as -> ->; auto.
Qed.

End Marking.



(** ** Coordinate rescaling *)

(** In any arithmetic, each output coordinate is the integer part of one
    input coordinate times the scale of its own axis. *)
Lemma rescale_coordinates {num} {A : Arith num} W H (b0 b1 b2 b3 : num) x1 y1 x2 y2 :
  rescale W H (b0, b1, b2, b3) = Some (x1, y1, x2, y2) <->
  to_int (times b0 (truediv (of_int W) (of_int 640))) = Some x1
  /\ to_int (times b1 (truediv (of_int H) (of_int 640))) = Some y1
  /\ to_int (times b2 (truediv (of_int W) (of_int 640))) = Some x2
  /\ to_int (times b3 (truediv (of_int H) (of_int 640))) = Some y2.
Proof.
  unfold rescale, scale_x, scale_y.
  destruct (to_int (times b0 _)) as [a|]; simpl; [| split; [discriminate | intros [? _]; discriminate]].
  destruct (to_int (times b1 _)) as [b|]; simpl;
    [| split; [discriminate | intros (_ & ? & _); discriminate]].
  destruct (to_int (times b2 _)) as [c|]; simpl;
    [| split; [discriminate | intros (_ & _ & ? & _); discriminate]].
  destruct (to_int (times b3 _)) as [d|]; simpl;
    [| split; [discriminate | intros (_ & _ & _ & ?); discriminate]].
  split.
  - intros E. injection E as -> -> -> ->. auto.
  - intros (E1 & E2 & E3 & E4). congruence.
Qed.

(** [int(x)] on a float is the integer part of its exact value, and raises
    exactly when the float has none. *)
Lemma trunc_float_value (x : spec_float) :
  Float.trunc x = Qtrunc <$> float_value x.
Proof.
  destruct x as [s | s | | s m e]; try reflexivity.
  unfold Float.trunc, float_value. cbn [fmap option_fmap option_map]. f_equal.
  destruct (0 <=? e) eqn:He.
  - destruct s; unfold Qtrunc; cbn [Qopp inject_Z Qnum Qden].
    + rewrite Z.quot_1_r. reflexivity.
    + rewrite Z.quot_1_r. reflexivity.
  - apply Z.leb_gt in He.
    assert (0 < 2 ^ (- e)) as Hp by (apply Z.pow_pos_nonneg; lia).
    assert (Z.quot (Z.pos m) (2 ^ (- e)) = Z.pos m / 2 ^ (- e)) as Hq
      by (apply Z.quot_div_nonneg; lia).
    destruct s; unfold Qtrunc; cbn [Qopp Qnum Qden]; rewrite Z2Pos.id by exact Hp.
    + change (- Z.pos m) with (Z.opp (Z.pos m)).
      rewrite Z.quot_opp_l by lia. rewrite Hq. reflexivity.
    + symmetry. exact Hq.
Qed.

(** The scale is a Python float: the quotient is taken in binary64 and
    converted to binary32 when it meets an entry of the box.  For every frame
    dimension up to 8192 that is the quotient taken in binary32. *)
Lemma scale_of_either_format :
  forallb (fun d =>
             SFeqb (Float.convert 24 128
                      (SFdiv 53 1024 (Float.of_Z 53 1024 d) (Float.of_Z 53 1024 640)))
                   (SFdiv 24 128 (Float.of_Z 24 128 d) (Float.of_Z 24 128 640)))
    (seqZ 1 8192) = true.
Proof. vm_compute. reflexivity. Qed.

(** C3. The box is rescaled by multiplying the x-coordinates by W/640 and the
    y-coordinates by H/640, each axis on its own, and taking the integer part
    of each product; nothing is clamped to the frame.  In a floating-point
    format (binary32, the format of the detector's boxes, and binary64 alike)
    each output coordinate is the integer part, towards zero, of the exact
    value of the float product of one input coordinate and the scale of its
    own axis, and the statement raises exactly when such a product is an
    infinity or a NaN.  The scales of a 1980x1080 original are exactly 99/32
    and 27/16; the box (0,0,640,640) then gives (0,0,1980,1080), and a box
    that sticks out of the working frame gives coordinates outside the
    original frame. *)
Theorem rescale_scales_and_truncates :
  (forall prec emax W H (b0 b1 b2 b3 : spec_float) x1 y1 x2 y2,
      let sx := SFdiv prec emax (Float.of_Z prec emax W) (Float.of_Z prec emax 640) in
      let sy := SFdiv prec emax (Float.of_Z prec emax H) (Float.of_Z prec emax 640) in
      @rescale _ (Float.arith prec emax) W H (b0, b1, b2, b3) = Some (x1, y1, x2, y2) <->
      Qtrunc <$> float_value (SFmul prec emax b0 sx) = Some x1
      /\ Qtrunc <$> float_value (SFmul prec emax b1 sy) = Some y1
      /\ Qtrunc <$> float_value (SFmul prec emax b2 sx) = Some x2
      /\ Qtrunc <$> float_value (SFmul prec emax b3 sy) = Some y2)
  /\ (forall q : Q,
         ((0 <= q)%Q ->
          (inject_Z (Qtrunc q) <= q)%Q /\ (q < inject_Z (Qtrunc q + 1))%Q)
         /\ ((q <= 0)%Q ->
             (q <= inject_Z (Qtrunc q))%Q /\ (inject_Z (Qtrunc q - 1) < q)%Q))
  /\ float_is (@scale_x _ Float.binary32 1980) (99 # 32)
  /\ float_is (@scale_y _ Float.binary32 1080) (27 # 16)
  /\ float_is (@scale_x _ Float.binary64 1980) (99 # 32)
  /\ float_is (@scale_y _ Float.binary64 1080) (27 # 16)
  /\ @rescale _ Float.binary32 1980 1080
       (Float.of_Z 24 128 0, Float.of_Z 24 128 0,
        Float.of_Z 24 128 640, Float.of_Z 24 128 640)
     = Some (0, 0, 1980, 1080)
  /\ @rescale _ Float.binary64 1980 1080
       (Float.of_Z 53 1024 0, Float.of_Z 53 1024 0,
        Float.of_Z 53 1024 640, Float.of_Z 53 1024 640)
     = Some (0, 0, 1980, 1080)
  /\ @rescale _ Float.binary32 1980 1080
       (Float.of_Z 24 128 (-10), Float.of_Z 24 128 (-10),
        Float.of_Z 24 128 700, Float.of_Z 24 128 700)
     = Some (-30, -16, 2165, 1181)
  /\ @rescale _ Float.binary32 1980 1080
       (S754_finite false 11010048 (-21), S754_finite true 8388608 (-24),
        S754_finite false 11010048 (-21), S754_infinity false)
     = None.
Proof.
  split.
  { intros prec emax W H b0 b1 b2 b3 x1 y1 x2 y2 sx sy.
    rewrite <- !trunc_float_value.
    exact (@rescale_coordinates _ (Float.arith prec emax) W H b0 b1 b2 b3 x1 y1 x2 y2). }
  split; [exact Qtrunc_spec |].
  repeat split; try (eexists; split; [vm_compute; reflexivity | reflexivity]).
Qed.

(** The integer part of -7/2 is -3, not -4. *)
Lemma rescale_scales_and_truncates_witness :
  ((-7 # 2) <= 0)%Q
  /\ Qtrunc (-7 # 2) = -3
  /\ ((-7 # 2) <= inject_Z (Qtrunc (-7 # 2)))%Q
  /\ (inject_Z (Qtrunc (-7 # 2) - 1) < (-7 # 2))%Q.
Proof.
  assert (((-7 # 2) <= 0)%Q) as H by (vm_compute; discriminate).
  split; [exact H |]. split; [reflexivity |].
  exact (proj2 (proj1 (proj2 rescale_scales_and_truncates) (-7 # 2)) H).
Defined.

(** The products are rounded to the format before the integer part is taken:
    in binary32, against a 1980x1080 original, the box below gives (1,5,4,10)
    where the integer parts of the unrounded products are (0,4,3,9). *)
Lemma rescale_rounds_before_truncating :
  let b0 := S754_finite false 10845877 (-25) in
  let b1 := S754_finite false 12427567 (-22) in
  let b2 := S754_finite false 10845877 (-23) in
  let b3 := S754_finite false 12427567 (-21) in
  @rescale _ Float.binary32 1980 1080 (b0, b1, b2, b3) = Some (1, 5, 4, 10)
  /\ @rescale _ Arith_Q 1980 1080
       (10845877 # 33554432, 12427567 # 4194304,
        10845877 # 8388608, 12427567 # 2097152)%Q = Some (0, 4, 3, 9)
  /\ float_value b0 = Some (10845877 # 33554432)%Q
  /\ float_value b1 = Some (12427567 # 4194304)%Q
  /\ float_value b2 = Some (10845877 # 8388608)%Q
  /\ float_value b3 = Some (12427567 # 2097152)%Q.
Proof. repeat split. Qed.

(** ** Failures inside an iteration *)

#[export] Instance emits_only_stepwise P : Stepwise (emits_only P).
Proof.
  split; unfold emits_only.
  - intros w. constructor.
  - intros w1 e1 w2 e2 w3 H1 H2. apply Forall_app. split; assumption.
Qed.

Section Resilience.
Context {num : Type} {A : Arith num}.
Variable names : gmap Z string.

Lemma process_instance_emits ow oh (i : @instance num) frame :
  respects (emits_only instance_event) (process_instance names ow oh i frame).
Proof.
  intros w. unfold emits_only.
  destruct (process_instance_cases names ow oh i frame w)
    as [(_ & _ & _ & ->) | (_ & _ & [(_ & _ & ->) | (_ & _ & _ & ->)])];
    try constructor.
  - left. exact I.
  - apply Forall_app. split.
    + destruct (save_stone_image_returns (frame ++ annotation names ow oh i) (sink i) w)
        as (_ & _ & _ & Hev).
      eapply Forall_impl; [exact Hev |]. intros ev Hs. right. exact Hs.
    + constructor; [left; exact I | constructor].
Qed.

Lemma for_instances_emits ow oh (l : list (@instance num)) frame w :
  Forall instance_event (events (for_instances names ow oh l frame w)).
Proof.
  apply (respects_for_instances names (emits_only instance_event) (fun _ => True)).
  - intros. apply process_instance_emits.
  - apply Forall_forall. auto.
Qed.

(** The body of the [for] loop neither reads the camera, nor calls the
    detector, nor displays, nor polls the key. *)
Lemma for_instances_no_loop_event ow oh (l : list (@instance num)) frame w ev :
  ev ∈ [CameraRead; Resize; Track; WaitKey; Enter_process_frame; Enter_cleanup] ->
  ev ∉ events (for_instances names ow oh l frame w).
Proof.
  intros Hev Hin.
  pose proof (for_instances_emits ow oh l frame w) as H.
  rewrite Forall_forall in H. specialize (H ev Hin).
  repeat (apply elem_of_cons in Hev as [-> | Hev];
          [destruct H as [[] | []] |]).
  inversion Hev.
Qed.

(** The poll of the key happens only at the end of a [try] block that ran
    through. *)
Lemma loop_body_raised_no_poll (tk : @tick num) w :
  value (loop_body names tk w) = Raised -> WaitKey ∉ events (loop_body names tk w).
Proof.
  intros Hr H. pose proof (loop_body_cases names tk w) as Hc. simpl in Hc.
  destruct (read tk) as [| | oh ow].
  - rewrite Hc in H. simpl in H.
    repeat (apply elem_of_cons in H as [H | H]; [discriminate H |]). inversion H.
  - rewrite Hc in Hr. discriminate Hr.
  - destruct (track tk) as [| | | l].
    + rewrite Hc in H. simpl in H.
      repeat (apply elem_of_cons in H as [H | H]; [discriminate H |]). inversion H.
    + rewrite Hc in H. simpl in H.
      repeat (apply elem_of_cons in H as [H | H]; [discriminate H |]). inversion H.
    + rewrite Hc in Hr, H. destruct (imshow_ok tk); [discriminate Hr |]. simpl in H.
      repeat (apply elem_of_cons in H as [H | H]; [discriminate H |]). inversion H.
    + assert (WaitKey ∉ events (for_instances names ow oh l [] w)) as Hfor.
      { apply for_instances_no_loop_event. do 3 apply list_elem_of_further.
        apply list_elem_of_here. }
      rewrite Hc in Hr, H.
      destruct (value (for_instances names ow oh l [] w)).
      * destruct (imshow_ok tk); [discriminate Hr |]. simpl in H.
        repeat (apply elem_of_cons in H as [H | H]; [discriminate H |]).
        apply elem_of_app in H as [H | H]; [auto |].
        repeat (apply elem_of_cons in H as [H | H]; [discriminate H |]). inversion H.
      * simpl in H.
        repeat (apply elem_of_cons in H as [H | H]; [discriminate H |]). auto.
Qed.

(** An iteration whose [try] block raises: the handler logs and goes on, and
    the key has not been polled. *)
Lemma iteration_of_raised_body (tk : @tick num) w :
  value (loop_body names tk w) = Raised ->
  iteration names tk w =
    (Ok Continue, final (loop_body names tk w),
     events (loop_body names tk w) ++ [Log ErrProcessFrame])
  /\ (WaitKey ∉ events (iteration names tk w)).
Proof.
  intros Hr. pose proof (iteration_of_body names tk w) as Hi. simpl in Hi.
  rewrite Hr in Hi. split; [exact Hi |].
  rewrite Hi. unfold events at 1. cbn [snd].
  intros [H | H]%elem_of_app.
  - exact (loop_body_raised_no_poll tk w Hr H).
  - apply list_elem_of_singleton in H. discriminate H.
Qed.

(** C4, as the code has it.  No exception leaves the body of [while True]:
    the handler catches whatever the [try] block raises, logs it and goes to
    the next tick, without polling the key.  Nothing is rolled back: the state
    the iteration leaves is the one the block had reached when it raised,
    with the snapshots and registry insertions made until then, so the
    registry only grows.  A failure of the write itself never reaches the
    loop, since the sink returns in every case. *)
Theorem iteration_never_raises (tk : @tick num) w :
  (exists c, value (iteration names tk w) = Ok c)
  /\ saved_stone_ids w ⊆ saved_stone_ids (final (iteration names tk w))
  /\ (forall frame env w', value (save_stone_image frame env w') = Ok tt)
  /\ (value (loop_body names tk w) = Raised ->
      iteration names tk w =
        (Ok Continue, final (loop_body names tk w),
         events (loop_body names tk w) ++ [Log ErrProcessFrame])
      /\ (WaitKey ∉ events (iteration names tk w))
      /\ forall rest,
          while_true names (tk :: rest) w =
            (value (while_true names rest (final (loop_body names tk w))),
             final (while_true names rest (final (loop_body names tk w))),
             events (iteration names tk w)
             ++ events (while_true names rest (final (loop_body names tk w))))).
Proof.
  split; [apply iteration_returns |].
  split; [apply (iteration_grows names tk w) |].
  split; [intros; apply save_stone_image_returns |].
  intros Hr. destruct (iteration_of_raised_body tk w Hr) as [Hi Hno].
  split; [exact Hi |]. split; [exact Hno |].
  intros rest. cbn [while_true]. unfold bind. rewrite Hi.
  destruct (while_true names rest (final (loop_body names tk w))) as [[r2 w2] e2].
  reflexivity.
Qed.
End Resilience.

(** On the sample installation: the second instance has a class the model
    has no name for, so the look-up of its label raises. *)
Lemma iteration_never_raises_witness :
  let tk := Sample.frame_with
              [ Sample.seen 2 (81 # 100) 7 (Sample.sink_at 1000 Written);
                Sample.seen 9 (60 # 100) 8 (Sample.sink_at 2000 Written) ] 113 in
  value (loop_body Sample.names tk (fresh true)) = Raised
  /\ value (iteration Sample.names tk (fresh true)) = Ok Continue
  /\ WaitKey ∉ events (iteration Sample.names tk (fresh true)).
Proof.
  intros tk.
  assert (value (loop_body Sample.names tk (fresh true)) = Raised) as H
    by (vm_compute; reflexivity).
  split; [exact H |].
  destruct (iteration_never_raises Sample.names tk (fresh true))
    as (_ & _ & _ & Hraised).
  destruct (Hraised H) as (Heq & Hno & _).
  split; [rewrite Heq; reflexivity | exact Hno].
Defined.

(** C4 as stated fails.  The iteration raises at its second instance, after
    the first one has been snapshotted and recorded: the failed iteration has
    called the sink, written a file and changed the registry. *)
Lemma failed_iteration_keeps_its_effects :
  let tk := Sample.frame_with
              [ Sample.seen 2 (81 # 100) 7 (Sample.sink_at 1000 Written);
                Sample.seen 9 (60 # 100) 8 (Sample.sink_at 2000 Written) ] (-1) in
  let r := iteration Sample.names tk (fresh true) in
  value (loop_body Sample.names tk (fresh true)) = Raised
  /\ last (events r) = Some (Log ErrProcessFrame)
  /\ snapshots 7 (events r) = 1%nat
  /\ marked 7 (fresh true) = 0%nat
  /\ marked 7 (final r) = 1%nat
  /\ size (files (fresh true)) = 0%nat
  /\ size (files (final r)) = 1%nat.
Proof.
  vm_compute. repeat split.
Qed.

(** ** Start and stop *)

Section Lifecycle.
Context {num : Type} {A : Arith num}.
Variable names : gmap Z string.

(** [cleanup] on a camera that is absent or not open: no release, no
    exception, and the state is left as it was. *)
Lemma cleanup_without_camera release destroy w :
  camera w <> Some true ->
  value (cleanup release destroy w) = Ok tt
  /\ final (cleanup release destroy w) = w
  /\ events (cleanup release destroy w) =
       Enter_cleanup :: DestroyAllWindows
       :: (if destroy then [Log InfoReleased] else [Log ErrCleanup]).
Proof.
  intros Hc. unfold cleanup. unfold_monad.
  destruct (camera w) as [[|]|] eqn:E; try congruence;
    destruct destroy; simpl; auto.
Qed.

(** [cleanup] never raises. *)
Lemma cleanup_returns release destroy w :
  value (cleanup release destroy w) = Ok tt.
Proof.
  unfold cleanup. unfold_monad.
  destruct (camera w) as [[|]|]; destruct release, destroy; reflexivity.
Qed.

(** C5, as the code has it.  When the camera cannot be opened, because
    [VideoCapture] raises or returns a capture that is not open,
    [init_camera] reports the failure, [process_frame] is not entered, and
    [cleanup] runs exactly once, returns without an exception and releases
    nothing.  In general [cleanup] on a camera that was never acquired is a
    no-op on the state, so that running it again does the same. *)
Theorem unopened_camera_skips_the_loop (s : @session num) dir :
  capture s = CaptureRaises \/ capture s = CaptureClosed ->
  let r := main names s (fresh dir) in
  value (init_camera (capture s) (setup s) (fresh dir)) = Ok false
  /\ value r = Ok Exited
  /\ (Enter_process_frame ∉ events r)
  /\ count_occ event_eq_dec (events r) Enter_cleanup = 1%nat
  /\ (Release ∉ events r)
  /\ (forall release destroy w,
         camera w <> Some true ->
         value (cleanup release destroy w) = Ok tt
         /\ (Release ∉ events (cleanup release destroy w))
         /\ final (cleanup release destroy w) = w
         /\ cleanup release destroy (final (cleanup release destroy w))
            = cleanup release destroy w).
Proof.
  intros Hcap r.
  assert (forall release destroy w,
             camera w <> Some true ->
             value (cleanup release destroy w) = Ok tt
             /\ (Release ∉ events (cleanup release destroy w))
             /\ final (cleanup release destroy w) = w
             /\ cleanup release destroy (final (cleanup release destroy w))
                = cleanup release destroy w) as Hclean.
  { intros release destroy w Hc.
    destruct (cleanup_without_camera release destroy w Hc) as (Hv & Hf & He).
    split; [exact Hv |]. split; [| split; [exact Hf | rewrite Hf; reflexivity]].
    rewrite He. intros H.
    repeat (apply elem_of_cons in H as [H | H]; [discriminate H |]).
    destruct destroy; apply list_elem_of_singleton in H; discriminate H. }
  assert (forall ev, ev = Enter_process_frame \/ ev = Release -> ev ∉ events r) as Hno.
  { intros ev Hev H. subst r. destruct s as [cap stp tks rel des]. simpl in Hcap.
    destruct Hcap as [-> | ->]; destruct des; vm_compute in H;
      repeat (apply elem_of_cons in H as [H | H];
              [destruct Hev as [-> | ->]; discriminate H |]);
      inversion H. }
  split; [destruct Hcap as [-> | ->]; reflexivity |].
  split; [subst r; destruct s as [cap stp tks rel des]; simpl in Hcap;
          destruct Hcap as [-> | ->]; destruct des; reflexivity |].
  split; [apply Hno; auto |].
  split; [subst r; destruct s as [cap stp tks rel des]; simpl in Hcap;
          destruct Hcap as [-> | ->]; destruct des; reflexivity |].
  split; [apply Hno; auto | exact Hclean].
Qed.
End Lifecycle.

(** On the sample installation, with a camera index nothing answers to. *)
Lemma unopened_camera_skips_the_loop_witness :
  let s := {| capture := CaptureClosed; setup := SetupOk; ticks := Sample.scenario;
              release_ok := true; destroy_ok := true |} in
  capture s = CaptureClosed
  /\ value (main Sample.names s (fresh true)) = Ok Exited
  /\ (Enter_process_frame ∉ events (main Sample.names s (fresh true))).
Proof.
  intros s. split; [reflexivity |].
  destruct (unopened_camera_skips_the_loop Sample.names s true (or_intror eq_refl))
    as (_ & Hv & Hno & _).
  split; [exact Hv | exact Hno].
Defined.

(** C5 as stated fails.  The camera opens and the window cannot be created:
    [init_camera] logs that the webcam could not be initialised and returns
    False, and [main], which looks at the camera and not at that result,
    enters [process_frame]. *)
Lemma failed_init_still_enters_the_loop :
  let s := {| capture := CaptureOpened; setup := WindowRaises;
              ticks := [Sample.frame_with [] 113];
              release_ok := true; destroy_ok := true |} in
  let r := main Sample.names s (fresh true) in
  value (init_camera CaptureOpened WindowRaises (fresh true)) = Ok false
  /\ Log ErrInitCamera ∈ events r
  /\ Enter_process_frame ∈ events r
  /\ Track ∈ events r.
Proof.
  vm_compute. repeat split.
  - do 4 constructor. apply list_elem_of_here.
  - do 6 constructor. apply list_elem_of_here.
  - do 9 constructor. apply list_elem_of_here.
Qed.

(** ** Dropped frames *)

Section Dropped.
Context {num : Type} {A : Arith num}.
Variable names : gmap Z string.


End Dropped.


(** ** The stop key *)

Section Stop.
Context {num : Type} {A : Arith num}.
Variable names : gmap Z string.


End Stop.



(** ** The name of a snapshot *)

(** The name holds the day, month, year, hour, minute and second of the first
    reading of the clock and the millisecond of the second reading; nothing
    else of the clock, and nothing of the call, goes into it. *)
Lemma snapshot_name_fields (env env' : sink_env) :
  day (now_date env) = day (now_date env') ->
  month (now_date env) = month (now_date env') ->
  year (now_date env) = year (now_date env') ->
  hour (now_date env) = hour (now_date env') ->
  minute (now_date env) = minute (now_date env') ->
  second (now_date env) = second (now_date env') ->
  microsecond (now_ms env) / 1000 = microsecond (now_ms env') / 1000 ->
  snapshot_name env = snapshot_name env'.
Proof.
  intros Hd Hm Hy Hh Hmi Hs Hms. unfold snapshot_name, strftime.
  rewrite Hd, Hm, Hy, Hh, Hmi, Hs, Hms. reflexivity.
Qed.

(** C8, on the code.  Two flagged tracks in one frame, whose snapshots are
    taken 444 microseconds apart within the same millisecond: the directory
    is created, both calls of the sink build the same file name, and the
    second image replaces the first, so that one file is left for two
    snapshots. *)
Theorem same_millisecond_same_filename :
  let a := Sample.seen 2 (81 # 100) 1 (Sample.sink_at 123456 Written) in
  let b := Sample.seen 3 (70 # 100) 2 (Sample.sink_at 123900 Written) in
  let r := process_frame Sample.names [Sample.frame_with [a; b] (-1)] (fresh false) in
  snapshot_name (sink a) = "c:/potato-identifier/03-11-2026 09-05-07-123.jpg"%string
  /\ snapshot_name (sink b) = snapshot_name (sink a)
  /\ dir_exists (final r) = true
  /\ snapshots 1 (events r) = 1%nat
  /\ snapshots 2 (events r) = 1%nat
  /\ writes (events r)
     = [ (snapshot_name (sink a), annotation Sample.names 1980 1080 a);
         (snapshot_name (sink a),
          annotation Sample.names 1980 1080 a ++ annotation Sample.names 1980 1080 b) ]
  /\ size (files (final r)) = 1%nat.
Proof.
  vm_compute. repeat split.
Qed.

(** ** Annotation *)

(** The text of a confidence has exactly two digits after the point. *)
Lemma format_2f_two_decimals (score : Q) :
  exists sign whole frac,
    format_2f score = (sign ++ whole ++ "." ++ frac)%string
    /\ String.length frac = 2%nat
    /\ (sign = ""%string \/ sign = "-"%string).
Proof.
  unfold format_2f.
  set (h := round_half_even (Qabs score * 100)%Q).
  exists (if Qnum score <? 0 then "-"%string else ""%string), (decimal (h / 100)),
    (zfill 2 (decimal (h mod 100))).
  split; [reflexivity |]. split; [| destruct (Qnum score <? 0); auto].
  assert (forallb (fun x => Nat.eqb (String.length (zfill 2 (decimal x))) 2)
            (seqZ 0 100) = true) as Hall by (vm_compute; reflexivity).
  rewrite forallb_forall in Hall.
  apply Nat.eqb_eq, Hall, list_elem_of_In, elem_of_seqZ.
  pose proof (Z.mod_pos_bound h 100). lia.
Qed.

(** The hundredths printed are the nearest to the value. *)
Lemma round_half_even_nearest (q : Q) :
  2 * Z.abs (Qnum q - round_half_even q * Z.pos (Qden q)) <= Z.pos (Qden q).
Proof.
  unfold round_half_even. destruct q as [n d]. simpl.
  pose proof (Z.div_mod n (Z.pos d) ltac:(lia)) as E.
  pose proof (Z.mod_pos_bound n (Z.pos d) ltac:(lia)) as B.
  destruct (Z.compare_spec (2 * (n mod Z.pos d)) (Z.pos d)) as [H | H | H];
    [destruct (Z.even (n / Z.pos d)) | |]; nia.
Qed.

Lemma writes_member name f evs : (name, f) ∈ writes evs <-> Imwrite name f ∈ evs.
Proof.
  unfold writes. rewrite !list_elem_of_In, in_flat_map. split.
  - intros (ev & Hev & Hin). destruct ev; try (destruct Hin; fail).
    destruct Hin as [Hin | []]. injection Hin as -> ->. exact Hev.
  - intros Hin. exists (Imwrite name f). split; [exact Hin | left; reflexivity].
Qed.

Section Annotation.
Context {num : Type} {A : Arith num}.
Variable names : gmap Z string.

(** What is drawn for an instance that can be drawn. *)
Lemma annotation_drawable ow oh (i : @instance num) :
  drawable names ow oh i ->
  exists x1 y1 x2 y2 label c,
    rescale ow oh (box i) = Some (x1, y1, x2, y2)
    /\ names !! cls i = Some label
    /\ c = match colors !! label with Some c' => c' | None => (0, 255, 0) end
    /\ annotation names ow oh i =
         [ Rectangle (x1, y1) (x2, y2) c 2;
           PutText (label ++ ": " ++ format_2f (score i))%string (x1, y1 - 10) c 2 ].
Proof.
  intros ([[[[x1 y1] x2] y2] Hr] & [label Hl] & _).
  exists x1, y1, x2, y2, label, (default (0, 255, 0) (colors !! label)).
  unfold annotation, label_of in *. rewrite Hr, Hl.
  repeat split; reflexivity.
Qed.

(** Every image handed to [imwrite] already carries the annotation of the
    instance whose snapshot it is, after those of the instances before it. *)
Lemma for_instances_written_frames ow oh (l : list (@instance num)) frame w :
  Forall (drawable names ow oh) l ->
  forall name f,
    Imwrite name f ∈ events (for_instances names ow oh l frame w) ->
    exists k i,
      l !! k = Some i /\ stone names i
      /\ f = frame ++ concat (map (annotation names ow oh) (take (S k) l)).
Proof.
  intros H. revert frame w. induction H as [| i l Hi _ IH]; intros frame w name f.
  - simpl. intros Hin. inversion Hin.
  - cbn [for_instances]. unfold bind.
    pose proof (process_instance_cases names ow oh i frame w) as Hc. simpl in Hc.
    unfold value, final, events in Hc.
    destruct (process_instance names ow oh i frame w) as [[[f1|] w1] e1];
      cbn [fst snd] in Hc.
    + specialize (IH f1 w1 name f). unfold events in IH |- *.
      destruct (for_instances names ow oh l f1 w1) as [[r2 w2] e2]. cbn [snd] in *.
      intros [Hin | Hin]%elem_of_app.
      * destruct Hc as [(_ & ? & _) | (_ & _ & [(_ & _ & ->) | (Hs & _ & _ & ->)])];
          [discriminate | inversion Hin |].
        exists 0%nat, i. split; [reflexivity |]. split; [exact Hs |].
        simpl. rewrite app_nil_r.
        apply elem_of_cons in Hin as [Hin | Hin]; [discriminate Hin |].
        apply elem_of_app in Hin as [Hin | Hin].
        -- apply save_stone_image_writes in Hin as [_ ->]. reflexivity.
        -- apply list_elem_of_singleton in Hin. discriminate Hin.
      * destruct Hc as [(_ & ? & _) | (_ & Hv & _)]; [discriminate |].
        injection Hv as ->.
        destruct (IH Hin) as (k & j & Hk & Hs & ->).
        exists (S k), j. split; [exact Hk |]. split; [exact Hs |].
        simpl. rewrite <- !app_assoc. reflexivity.
    + destruct Hc as [(Hn & _) | (_ & ? & _)]; [contradiction | discriminate].
Qed.

(** C9, as the code has it.  In a frame with active tracks the instances are
    annotated in the order of the list, flagged or not, up to the first one
    at which the rescaling, the label lookup or a drawing call raises.  For
    the instances [l1] before that point: each gets a rectangle between the
    rescaled corners and, ten pixels above the top-left corner, the text
    "label: confidence" with the confidence at two decimals, both in the
    colour the table gives for the label, or in (0, 255, 0), the colour of
    'OK', when the table has none; the annotation comes before the decision
    on the snapshot, every image written carrying the annotation of the
    instance it is written for; the rest [l2] of the list is processed from
    the canvas they leave.  When [l2] is empty the frame displayed carries
    all the annotations.  When [l2] starts with an instance that raises, the
    [for] loop is left there: neither that instance nor any after it is
    annotated, and the frame is not displayed. *)
Theorem every_instance_is_annotated ow oh (l1 l2 : list (@instance num)) w :
  Forall (drawable names ow oh) l1 ->
  let r1 := for_instances names ow oh l1 [] w in
  let r2 := for_instances names ow oh l2
              (concat (map (annotation names ow oh) l1)) (final r1) in
  let r := for_instances names ow oh (l1 ++ l2) [] w in
  value r1 = Ok (concat (map (annotation names ow oh) l1))
  /\ r = (value r2, final r2, events r1 ++ events r2)
  /\ (forall i, i ∈ l1 ->
        exists x1 y1 x2 y2 label c,
          rescale ow oh (box i) = Some (x1, y1, x2, y2)
          /\ names !! cls i = Some label
          /\ c = match colors !! label with Some c' => c' | None => (0, 255, 0) end
          /\ annotation names ow oh i =
               [ Rectangle (x1, y1) (x2, y2) c 2;
                 PutText (label ++ ": " ++ format_2f (score i))%string
                   (x1, y1 - 10) c 2 ])
  /\ colors !! "OK"%string = Some (0, 255, 0)
  /\ (forall score, exists sign whole frac,
         format_2f score = (sign ++ whole ++ "." ++ frac)%string
         /\ String.length frac = 2%nat
         /\ (sign = ""%string \/ sign = "-"%string))
  /\ (forall name f,
         (name, f) ∈ writes (events r1) ->
         exists k i, l1 !! k = Some i /\ stone names i
                     /\ f = concat (map (annotation names ow oh) (take (S k) l1)))
  /\ (forall tk : @tick num,
         read tk = ReadOk oh ow -> track tk = Tracks l1 ->
         Imshow (concat (map (annotation names ow oh) l1))
           ∈ events (iteration names tk w))
  /\ (forall i l3,
         l2 = i :: l3 -> ~ drawable names ow oh i ->
         r = (Raised, final r1, events r1)
         /\ forall tk : @tick num,
              read tk = ReadOk oh ow -> track tk = Tracks (l1 ++ l2) ->
              iteration names tk w =
                (Ok Continue, final r1,
                 [CameraRead; Resize; Track] ++ events r1 ++ [Log ErrProcessFrame])
              /\ forall f, Imshow f ∉ events (iteration names tk w)).
Proof.
  intros Hd r1 r2 r.
  destruct (for_instances_sound names ow oh l1 [] w Hd) as [Hv _]. fold r1 in Hv.
  pose proof (for_instances_app names ow oh l1 l2 [] w Hd) as Happ.
  cbn [app] in Happ. fold r1 r2 r in Happ.
  split; [exact Hv |].
  split; [exact Happ |].
  split; [intros i Hi; apply annotation_drawable;
          rewrite Forall_forall in Hd; auto |].
  split; [reflexivity |].
  split; [exact format_2f_two_decimals |].
  split; [intros name f Hin; apply writes_member in Hin;
          exact (for_instances_written_frames ow oh l1 [] w Hd name f Hin) |].
  split.
  - intros tk Hr Ht. rewrite iteration_of_body.
    pose proof (loop_body_cases names tk w) as Hc. simpl in Hc.
    rewrite Hr, Ht in Hc. fold r1 in Hc. rewrite Hv in Hc. rewrite Hc.
    destruct (imshow_ok tk); unfold value, events; cbn [fst snd].
    + do 3 apply list_elem_of_further. apply elem_of_app. right. apply list_elem_of_here.
    + apply elem_of_app. left. do 3 apply list_elem_of_further.
      apply elem_of_app. right. apply list_elem_of_here.
  - intros i l3 El Hn.
    assert (r2 = (Raised, final r1, [])) as E2.
    { unfold r2. rewrite El. cbn [for_instances]. unfold bind.
      destruct (process_instance_cases names ow oh i
                  (concat (map (annotation names ow oh) l1)) (final r1))
        as [(_ & Ev & Ef & Ee) | (Hdi & _)]; [| contradiction].
      destruct (process_instance names ow oh i _ (final r1)) as [[v1 w1] e1].
      unfold value in Ev. unfold final at 1 in Ef. unfold events in Ee.
      cbn [fst snd] in Ev, Ef, Ee. subst v1 w1 e1. reflexivity. }
    assert (r = (Raised, final r1, events r1)) as E.
    { rewrite Happ, E2. unfold value, final, events. cbn [fst snd].
      rewrite app_nil_r. reflexivity. }
    split; [exact E |].
    intros tk Hr Ht.
    assert (iteration names tk w =
              (Ok Continue, final r1,
               [CameraRead; Resize; Track] ++ events r1 ++ [Log ErrProcessFrame])) as Ei.
    { rewrite iteration_of_body.
      pose proof (loop_body_cases names tk w) as Hc. simpl in Hc.
      rewrite Hr, Ht in Hc. fold r in Hc. rewrite E in Hc.
      unfold value, final, events in Hc. cbn [fst snd] in Hc.
      rewrite Hc. unfold value, final, events. cbn [fst snd].
      reflexivity. }
    split; [exact Ei |].
    intros f Hin. rewrite Ei in Hin. unfold events in Hin. cbn [snd] in Hin.
    repeat (apply elem_of_cons in Hin as [Hin | Hin]; [discriminate Hin |]).
    apply elem_of_app in Hin as [Hin | Hin].
    + pose proof (for_instances_emits names ow oh l1 [] w) as He.
      rewrite Forall_forall in He. specialize (He _ Hin).
      destruct He as [[] | []].
    + apply list_elem_of_singleton in Hin. discriminate Hin.
Qed.
End Annotation.

(** On the sample installation, in binary32: a good potato and a stone in one
    frame. *)
Lemma every_instance_is_annotated_witness :
  let l := [ Sample.seen32 0 (9 # 10) 12 (Sample.sink_at 0 Written);
             Sample.seen32 2 (3 # 8) 7 (Sample.sink_at 1000 Written) ] in
  Forall (@drawable _ Float.binary32 Sample.names 1980 1080) l
  /\ value (@for_instances _ Float.binary32 Sample.names 1980 1080 l [] (fresh true))
     = Ok [ Rectangle (30, 33) (309, 337) (0, 255, 0) 2;
            PutText "OK: 0.90" (30, 23) (0, 255, 0) 2;
            Rectangle (30, 33) (309, 337) (0, 0, 255) 2;
            PutText "PEDRA: 0.38" (30, 23) (0, 0, 255) 2 ].
Proof.
  intros l.
  assert (Forall (@drawable _ Float.binary32 Sample.names 1980 1080) l) as H.
  { repeat constructor; eexists; vm_compute; reflexivity. }
  split; [exact H |].
  destruct (@every_instance_is_annotated _ Float.binary32 Sample.names 1980 1080
              l [] (fresh true) H) as (Hv & _).
  rewrite Hv. vm_compute. reflexivity.
Defined.

(** Not every detected instance of a frame is annotated.  The first instance
    of this frame has a class the model has no name for: the label lookup
    raises, the handler of the loop logs the error, and the stone after it
    gets neither rectangle nor text; nothing is written and no frame is
    displayed. *)
Lemma instance_after_a_failure_is_not_annotated :
  let l := [ Sample.seen32 9 (1 # 2) 8 (Sample.sink_at 0 Written);
             Sample.seen32 2 (81 # 100) 5 (Sample.sink_at 1000 Written) ] in
  let r := @for_instances _ Float.binary32 Sample.names 1980 1080 l [] (fresh true) in
  let it := @iteration _ Float.binary32 Sample.names (Sample.frame32 l (-1)) (fresh true) in
  r = (Raised, fresh true, [])
  /\ it = (Ok Continue, fresh true, [CameraRead; Resize; Track; Log ErrProcessFrame])
  /\ @annotation _ Float.binary32 Sample.names 1980 1080
       (Sample.seen32 2 (81 # 100) 5 (Sample.sink_at 1000 Written))
     = [ Rectangle (30, 33) (309, 337) (0, 0, 255) 2;
         PutText "PEDRA: 0.81" (30, 23) (0, 0, 255) 2 ].
Proof. repeat split; vm_compute; reflexivity. Qed.

(** ** The flagged classes *)

(** The test of line 103 is membership in the Flagged-Class Set. *)
Lemma is_stone_flagged label : is_stone label = true <-> label ∈ flagged_classes.
Proof.
  unfold is_stone, flagged_classes.
  rewrite !orb_true_iff, !String.eqb_eq, !elem_of_union, !elem_of_singleton.
  reflexivity.
Qed.

Section Flagged.
Context {num : Type} {A : Arith num}.
Variable names : gmap Z string.

Lemma process_instance_quiet ow oh (i : @instance num) frame :
  ~ stone names i ->
  respects (quiet snapshot_event) (process_instance names ow oh i frame).
Proof.
  intros Hn w. unfold quiet.
  destruct (process_instance_cases names ow oh i frame w)
    as [(_ & _ & -> & ->) | (_ & _ & [(_ & -> & ->) | (Hs & _)])];
    [split; [reflexivity | constructor] .. | contradiction].
Qed.

(** C10. The labels that can trigger a snapshot are exactly 'PEDRA',
    'PEDRA-NA-BATATA' and 'BATATA-COM-PEDRA'; 'PODRE' and 'OK' are not among
    them, although 'PODRE' has a colour of its own.  An instance whose label
    is outside the set, or has no label, leaves no trace of a snapshot and
    changes nothing, whatever the registry holds; over a whole run, the sink
    is only ever called for a track that some tick shows with a flagged
    label, and a run in which no instance is flagged calls no sink, writes no
    file and leaves the state as it was. *)
Theorem only_flagged_classes_are_snapshotted :
  (forall label, is_stone label = true <-> label ∈ flagged_classes)
  /\ flagged_classes = {[ "PEDRA"%string; "PEDRA-NA-BATATA"%string;
                          "BATATA-COM-PEDRA"%string ]}
  /\ is_stone "PODRE" = false /\ is_stone "OK" = false
  /\ colors !! "PODRE"%string = Some (255, 0, 0)
  /\ (forall ow oh (i : @instance num) frame w,
         ~ stone names i ->
         final (process_instance names ow oh i frame w) = w
         /\ events (process_instance names ow oh i frame w) = [])
  /\ (forall (ticks : list (@tick num)) w t,
         SaveStoneImage t ∈ events (process_frame names ticks w) ->
         Exists (shows_stone names t) ticks)
  /\ (forall (ticks : list (@tick num)) w,
         Forall (fun tk => Forall (fun i => ~ stone names i) (instances_of tk)) ticks ->
         final (process_frame names ticks w) = w
         /\ Forall (fun ev => ~ snapshot_event ev) (events (process_frame names ticks w))).
Proof.
  split; [exact is_stone_flagged |].
  split; [reflexivity |].
  split; [reflexivity |]. split; [reflexivity |]. split; [reflexivity |].
  split; [| split].
  - intros ow oh i frame w Hn.
    destruct (process_instance_cases names ow oh i frame w)
      as [(_ & _ & -> & ->) | (_ & _ & [(_ & -> & ->) | (Hs & _)])];
      [split; reflexivity .. | contradiction].
  - intros ticks w t. rewrite process_frame_unfold. unfold events at 1. cbn [snd].
    intros H. apply elem_of_cons in H as [H | H]; [discriminate H |].
    exact (snapshot_was_shown names t ticks w H).
  - intros ticks w Hall.
    apply (respects_process_frame names (quiet snapshot_event)
             (fun i => ~ stone names i)).
    + intros ev w' Hev. split; [reflexivity | repeat constructor; exact Hev].
    + intros. apply process_instance_quiet. assumption.
    + exact Hall.
Qed.
End Flagged.

(** On the sample installation: a rotten potato, seen over and over under the
    same track, is never snapshotted. *)
Lemma only_flagged_classes_are_snapshotted_witness :
  let rotten := Sample.seen 1 (95 # 100) 5 (Sample.sink_at 0 Written) in
  let run := replicate 3 (Sample.frame_with [rotten] (-1)) in
  ~ stone Sample.names rotten
  /\ final (process_frame Sample.names run (fresh true)) = fresh true
  /\ Forall (fun ev => ~ snapshot_event ev)
       (events (process_frame Sample.names run (fresh true))).
Proof.
  intros rotten run.
  assert (~ stone Sample.names rotten) as H.
  { intros (label & Hl & Hs). vm_compute in Hl. injection Hl as <-. discriminate Hs. }
  split; [exact H |].
  destruct (only_flagged_classes_are_snapshotted (A := Arith_Q) Sample.names)
    as (_ & _ & _ & _ & _ & _ & _ & Hrun).
  apply Hrun. repeat constructor; exact H.
Defined.

(** * Further properties of the code *)

(** Closes a goal about a trace and a state that are fully computed. *)
Ltac settle :=
  repeat match goal with
    | |- _ /\ _ => split
    | |- _ <-> _ => split
    | |- ~ _ => intro
    | |- _ -> _ => intro
    | H : _ /\ _ |- _ => destruct H
    | H : _ \/ _ |- _ => destruct H
    | H : False |- _ => destruct H
    | H : _ ∈ _ |- _ => apply list_elem_of_In in H; simpl in H
    | H : ?a = ?b |- _ => discriminate H
    | H : ?a <> ?a |- _ => exfalso; apply H; reflexivity
    | H : ?a = ?a -> _ |- _ => specialize (H eq_refl)
    | |- _ ∈ _ => apply list_elem_of_In; simpl
    end;
  try reflexivity; eauto 10.

(** ** [init_camera] *)

(** X1. [init_camera] never raises.  It returns True exactly when the capture
    opened and the whole set-up went through; a False comes with an error
    log as the last event; and the camera field afterwards is the new
    capture whenever [VideoCapture] returned one, open or not, also when the
    call as a whole failed.  The windows are only set up on an open capture.
    The registry, the directory and the files are not touched. *)
Theorem init_camera_outcome capture setup w :
  let r := init_camera capture setup w in
  (exists b, value r = Ok b)
  /\ (value r = Ok true <-> capture = CaptureOpened /\ setup = SetupOk)
  /\ camera (final r) =
       match capture with
       | CaptureRaises => camera w
       | CaptureClosed => Some false
       | CaptureOpened => Some true
       end
  /\ (value r = Ok false ->
      last (events r) = Some (Log ErrOpenCamera)
      \/ last (events r) = Some (Log ErrNoCamera))
  /\ (WindowSetup ∈ events r <-> capture = CaptureOpened /\ setup <> SetRaises)
  /\ saved_stone_ids (final r) = saved_stone_ids w
  /\ dir_exists (final r) = dir_exists w
  /\ files (final r) = files w.
Proof.
  destruct w as [cam sv there fs].
  destruct capture, setup; cbv [init_camera]; unfold_monad; simpl; settle.
Qed.

(** ** [cleanup] *)

(** X2. [cleanup] on an open camera calls [release] once.  When the release
    returns, the camera is closed, the windows are destroyed, and a second
    [cleanup] does not release again.  When the release raises, the windows
    are not destroyed and the error is logged. *)
Theorem cleanup_releases_open_camera release destroy w :
  camera w = Some true ->
  let r := cleanup release destroy w in
  value r = Ok tt
  /\ count_occ event_eq_dec (events r) Release = 1%nat
  /\ (release = true ->
      camera (final r) = Some false
      /\ DestroyAllWindows ∈ events r
      /\ forall release' destroy',
          Release ∉ events (cleanup release' destroy' (final r)))
  /\ (release = false ->
      events r = [Enter_cleanup; Release; Log ErrCleanup]).
Proof.
  intros Hc r. subst r. destruct w as [cam sv there fs]. simpl in Hc. subst cam.
  destruct release, destroy; cbv [cleanup]; unfold_monad; simpl;
    (split; [reflexivity |]); (split; [reflexivity |]);
    (split; intros H; try discriminate H);
    try reflexivity;
    (split; [reflexivity |]);
    (split; [apply list_elem_of_In; simpl; auto |]);
    intros [] []; settle.
Qed.

(** An open camera, released without trouble. *)
Lemma cleanup_releases_open_camera_witness :
  let w := set_camera (Some true) (fresh true) in
  camera w = Some true
  /\ events (cleanup true true w)
     = [Enter_cleanup; Release; DestroyAllWindows; Log InfoReleased]
  /\ camera (final (cleanup true true w)) = Some false.
Proof.
  intros w. split; [reflexivity |]. split; [reflexivity |].
  destruct (cleanup_releases_open_camera true true w eq_refl) as (_ & _ & Hok & _).
  destruct (Hok eq_refl) as (Hcam & _). exact Hcam.
Defined.

(** X3. [cleanup] never raises, whatever state the camera is in and whichever
    of its calls fails, and it touches nothing but the camera: the registry,
    the destination directory and the files are as before.  Its last event is
    one log message: the success message exactly when the windows were
    destroyed and, for an open camera, the release returned; the error
    message otherwise. *)
Theorem cleanup_is_contained release destroy w :
  let r := cleanup release destroy w in
  value r = Ok tt
  /\ saved_stone_ids (final r) = saved_stone_ids w
  /\ dir_exists (final r) = dir_exists w
  /\ files (final r) = files w
  /\ (last (events r) = Some (Log InfoReleased) \/ last (events r) = Some (Log ErrCleanup))
  /\ (last (events r) = Some (Log InfoReleased) <->
      destroy = true /\ (camera w = Some true -> release = true)).
Proof.
  destruct w as [[[|]|] sv there fs]; destruct release, destroy;
    cbv [cleanup]; unfold_monad; simpl; settle.
Qed.

(** ** What a run of the loop keeps *)

Section LoopKeeps.
Context {num : Type} {A : Arith num}.
Variable names : gmap Z string.
Context (R : world -> list event -> world -> Prop) `{!Stepwise R}.

(** The events of the loop itself are neutral for [R]. *)
Hypothesis neutral : forall ev w, loop_event ev -> R w [ev] w.

Hypothesis instances_respect :
  forall ow oh (i : @instance num) frame,
    respects R (process_instance names ow oh i frame).

Lemma for_instances_keeps ow oh (l : list (@instance num)) frame :
  respects R (for_instances names ow oh l frame).
Proof.
  revert frame. induction l as [| i l IH]; intros frame; simpl.
  - apply respects_ret; assumption.
  - apply respects_bind; [assumption | apply instances_respect | intros; apply IH].
Qed.

Lemma iteration_keeps (tk : @tick num) : respects R (iteration names tk).
Proof.
  intros w. rewrite iteration_of_body.
  pose proof (loop_body_cases names tk w) as Hc. simpl in Hc.
  assert (forall evs w', Forall loop_event evs -> R w' evs w') as Hmany.
  { intros evs w'. induction 1 as [| ev evs Hev _ IH]; [apply stepwise_nil |].
    change (ev :: evs) with ([ev] ++ evs).
    eapply stepwise_app; [apply neutral; exact Hev | exact IH]. }
  assert (forall pre post (l : list (@instance num)) ow oh,
             Forall loop_event pre -> Forall loop_event post ->
             R w (pre ++ events (for_instances names ow oh l [] w) ++ post)
               (final (for_instances names ow oh l [] w))) as Hfor.
  { intros pre post l ow oh Hpre Hpost.
    eapply stepwise_app; [apply Hmany; exact Hpre |].
    eapply stepwise_app; [apply for_instances_keeps | apply Hmany; exact Hpost]. }
  destruct (read tk) as [| | oh ow]; [| | destruct (track tk) as [| | | l]];
    rewrite Hc; clear Hc.
  - apply (Hmany [CameraRead; Log ErrProcessFrame]). repeat constructor.
  - apply (Hmany [CameraRead; Log WarnCaptureFailed]). repeat constructor.
  - apply (Hmany [CameraRead; Resize; Log ErrProcessFrame]). repeat constructor.
  - apply (Hmany [CameraRead; Resize; Track; Log ErrProcessFrame]). repeat constructor.
  - destruct (imshow_ok tk).
    + apply (Hmany [CameraRead; Resize; Track; Imshow []; WaitKey]). repeat constructor.
    + apply (Hmany [CameraRead; Resize; Track; Imshow []; Log ErrProcessFrame]).
      repeat constructor.
  - specialize (Hfor [CameraRead; Resize; Track]).
    destruct (value (for_instances names ow oh l [] w)) as [frame|].
    + destruct (imshow_ok tk).
      * apply (Hfor [Imshow frame; WaitKey] l ow oh); repeat constructor.
      * unfold value, final, events in *. cbn [fst snd app] in *.
        rewrite <- app_assoc.
        apply (Hfor [Imshow frame; Log ErrProcessFrame] l ow oh); repeat constructor.
    + apply (Hfor [Log ErrProcessFrame] l ow oh); repeat constructor.
Qed.

Lemma while_true_keeps (ticks : list (@tick num)) : respects R (while_true names ticks).
Proof.
  induction ticks as [| tk ticks IH]; simpl.
  - apply respects_ret; assumption.
  - apply respects_bind; [assumption | apply iteration_keeps |].
    intros [|]; [exact IH | apply respects_ret; assumption].
Qed.

Lemma process_frame_keeps (ticks : list (@tick num)) :
  respects R (process_frame names ticks).
Proof.
  unfold process_frame.
  apply respects_bind; [assumption | apply respects_emit; intros; apply neutral; exact I |].
  intros _. apply while_true_keeps.
Qed.
End LoopKeeps.

Lemma occurrences_app p e1 e2 :
  occurrences p (e1 ++ e2) = (occurrences p e1 + occurrences p e2)%nat.
Proof. unfold occurrences. rewrite List.filter_app, length_app. reflexivity. Qed.

Lemma occurrences_none p evs :
  Forall (fun ev => p ev = false) evs -> occurrences p evs = 0%nat.
Proof.
  unfold occurrences. induction 1 as [| ev evs Hev _ IH]; [reflexivity |].
  simpl. rewrite Hev. exact IH.
Qed.

#[export] Instance keeps_camera_stepwise : Stepwise keeps_camera.
Proof.
  split; unfold keeps_camera; [reflexivity | congruence].
Qed.

#[export] Instance keeps_directory_stepwise : Stepwise keeps_directory.
Proof.
  split; unfold keeps_directory.
  - intros w H. split; [exact H | intros Hin; inversion Hin].
  - intros w1 e1 w2 e2 w3 H1 H2 H. destruct (H1 H) as [H12 Hn1].
    destruct (H2 H12) as [H23 Hn2]. split; [exact H23 |].
    intros [Hin | Hin]%elem_of_app; auto.
Qed.

#[export] Instance directory_counted_stepwise : Stepwise directory_counted.
Proof.
  split; unfold directory_counted.
  - intros w. reflexivity.
  - intros w1 e1 w2 e2 w3 H1 H2. rewrite occurrences_app. lia.
Qed.

#[export] Instance files_grow_stepwise : Stepwise files_grow.
Proof.
  split; unfold files_grow; [reflexivity | intros; etransitivity; eassumption].
Qed.

#[export] Instance files_written_stepwise : Stepwise files_written.
Proof.
  split; unfold files_written.
  - intros w name H. left. exact H.
  - intros w1 e1 w2 e2 w3 H1 H2 name H.
    destruct (H2 name H) as [H' | [f Hf]].
    + destruct (H1 name H') as [H'' | [f Hf]]; [left; exact H'' |].
      right. exists f. apply elem_of_app. left. exact Hf.
    + right. exists f. apply elem_of_app. right. exact Hf.
Qed.

#[export] Instance paired_stepwise t : Stepwise (paired t).
Proof.
  split; unfold paired.
  - intros w. split; intros H; inversion H.
  - intros w1 e1 w2 e2 w3 H1 H2. rewrite !elem_of_app. tauto.
Qed.

(** ** The sink, call by call *)

Section SinkCalls.
Context {num : Type} {A : Arith num}.
Variable names : gmap Z string.

(** The sink, case by case. *)
Lemma save_stone_image_cases frame env w :
  save_stone_image frame env w =
    if dir_exists w then
      match imwrite env with
      | Written =>
          (Ok tt, write_file (snapshot_name env) frame w,
           [Imwrite (snapshot_name env) frame; Log (InfoSnapshotSaved (snapshot_name env))])
      | NotWritten =>
          (Ok tt, w,
           [Imwrite (snapshot_name env) frame; Log (InfoSnapshotSaved (snapshot_name env))])
      | ImwriteRaises =>
          (Ok tt, w, [Imwrite (snapshot_name env) frame; Log ErrSaveFailed])
      end
    else if makedirs_ok env then
      match imwrite env with
      | Written =>
          (Ok tt, write_file (snapshot_name env) frame (create_dir w),
           [Makedirs; Log InfoDirCreated; Imwrite (snapshot_name env) frame;
            Log (InfoSnapshotSaved (snapshot_name env))])
      | NotWritten =>
          (Ok tt, create_dir w,
           [Makedirs; Log InfoDirCreated; Imwrite (snapshot_name env) frame;
            Log (InfoSnapshotSaved (snapshot_name env))])
      | ImwriteRaises =>
          (Ok tt, create_dir w,
           [Makedirs; Log InfoDirCreated; Imwrite (snapshot_name env) frame;
            Log ErrSaveFailed])
      end
    else (Ok tt, w, [Makedirs; Log ErrSaveFailed]).
Proof.
  unfold save_stone_image. unfold_monad. destruct w as [cam sv there fs]. simpl.
  destruct there; simpl; [| destruct (makedirs_ok env); simpl];
    destruct (imwrite env); reflexivity.
Qed.
End SinkCalls.

(** X4. When the destination directory exists or can be created and the
    write succeeds, the image is afterwards on disk under the name built
    from the clock, every other file is as it was, the directory exists, and
    the last event is the log of that name. *)
Theorem sink_write_then_lookup frame env w :
  (dir_exists w || makedirs_ok env) = true -> imwrite env = Written ->
  let r := save_stone_image frame env w in
  files (final r) !! snapshot_name env = Some frame
  /\ (forall name, name <> snapshot_name env -> files (final r) !! name = files w !! name)
  /\ dir_exists (final r) = true
  /\ last (events r) = Some (Log (InfoSnapshotSaved (snapshot_name env))).
Proof.
  intros Hd Hw r. subst r. rewrite save_stone_image_cases, Hw.
  destruct (dir_exists w) eqn:Hthere; simpl in Hd; [| rewrite Hd];
    unfold final, events; cbn [fst snd write_file create_dir files dir_exists];
    (split; [apply lookup_insert_eq |]);
    (split; [intros name Hn; apply lookup_insert_ne; congruence |]);
    (split; [try exact Hthere; reflexivity | reflexivity]).
Qed.

(** A first snapshot into a directory that does not exist yet. *)
Lemma sink_write_then_lookup_witness :
  let env := Sample.sink_at 123456 Written in
  let r := save_stone_image [Rectangle (0, 0) (1, 1) (0, 0, 255) 2] env (fresh false) in
  (dir_exists (fresh false) || makedirs_ok env) = true
  /\ imwrite env = Written
  /\ files (final r) !! "c:/potato-identifier/03-11-2026 09-05-07-123.jpg"%string
     = Some [Rectangle (0, 0) (1, 1) (0, 0, 255) 2].
Proof.
  intros env r. split; [reflexivity |]. split; [reflexivity |].
  destruct (sink_write_then_lookup [Rectangle (0, 0) (1, 1) (0, 0, 255) 2] env
              (fresh false) eq_refl eq_refl) as (Hlook & _).
  exact Hlook.
Defined.

(** X5. How the sink fails.  When the directory is absent and cannot be
    created, [imwrite] is not attempted and nothing changes.  Whenever the
    write does not succeed the files are as they were.  The error message is
    the last event exactly when [makedirs] or [imwrite] raised; when
    [imwrite] returns False the sink logs the snapshot as saved although
    nothing was written. *)
Theorem sink_failures frame env w :
  let r := save_stone_image frame env w in
  (dir_exists w = false -> makedirs_ok env = false ->
   final r = w /\ events r = [Makedirs; Log ErrSaveFailed])
  /\ (imwrite env <> Written -> files (final r) = files w)
  /\ (last (events r) = Some (Log ErrSaveFailed) <->
      (dir_exists w || makedirs_ok env) = false
      \/ imwrite env = ImwriteRaises)
  /\ (last (events r) = Some (Log (InfoSnapshotSaved (snapshot_name env))) <->
      (dir_exists w || makedirs_ok env) = true /\ imwrite env <> ImwriteRaises)
  /\ ((dir_exists w || makedirs_ok env) = true -> imwrite env = NotWritten ->
      last (events r) = Some (Log (InfoSnapshotSaved (snapshot_name env)))
      /\ files (final r) = files w).
Proof.
  intros r. subst r. rewrite save_stone_image_cases.
  destruct w as [cam sv there fs]. cbn [dir_exists].
  destruct there, (makedirs_ok env), (imwrite env);
    unfold final, events; cbn [fst snd orb last write_file create_dir files];
    settle.
Qed.

(** ** What a run of the loop keeps, for the camera, the disk and the registry *)

Section RunKeeps.
Context {num : Type} {A : Arith num}.
Variable names : gmap Z string.

(** What one instance does to the state and the trace, through the sink. *)
Lemma process_instance_through_sink (R : world -> list event -> world -> Prop)
    `{!Stepwise R} ow oh (i : @instance num) frame :
  (forall f env w t,
      R w (SaveStoneImage t :: events (save_stone_image f env w) ++ [RegistryAdd t])
        (add_saved t (final (save_stone_image f env w)))) ->
  respects R (process_instance names ow oh i frame).
Proof.
  intros Hsink w.
  destruct (process_instance_cases names ow oh i frame w)
    as [(_ & _ & -> & ->) | (_ & _ & [(_ & -> & ->) | (_ & _ & -> & ->)])];
    [apply stepwise_nil .. | apply Hsink].
Qed.

Lemma process_frame_camera (ticks : list (@tick num)) w :
  camera (final (process_frame names ticks w)) = camera w.
Proof.
  apply (process_frame_keeps names keeps_camera).
  - intros ev w' _. reflexivity.
  - intros. apply process_instance_through_sink; [apply _ |].
    intros f env w' t. unfold keeps_camera. simpl.
    apply save_stone_image_returns.
Qed.

Lemma process_frame_no_lifecycle (ticks : list (@tick num)) w :
  Forall (fun ev => ~ lifecycle_event ev) (events (process_frame names ticks w)).
Proof.
  apply (process_frame_keeps names (emits_only (fun ev => ~ lifecycle_event ev))).
  - intros ev w' Hev. repeat constructor.
    destruct ev as [[] | | | | | | | | | | | | | | | | |]; simpl in *; tauto.
  - intros ow oh i frame w'.
    pose proof (process_instance_emits names ow oh i frame w') as H.
    unfold emits_only in *. eapply Forall_impl; [exact H |].
    intros ev [Hs | Hs]; destruct ev as [[] | | | | | | | | | | | | | | | | |];
      simpl in *; tauto.
Qed.

(** X6. A run of the loop leaves the camera field as it found it, and emits
    none of the events of [init_camera], [cleanup] and [main]: it never opens,
    configures or releases the camera and never destroys the windows. *)
Theorem loop_leaves_camera_alone (ticks : list (@tick num)) w :
  camera (final (process_frame names ticks w)) = camera w
  /\ Forall (fun ev => ~ lifecycle_event ev) (events (process_frame names ticks w))
  /\ (Release ∉ events (process_frame names ticks w))
  /\ (VideoCapture ∉ events (process_frame names ticks w))
  /\ (DestroyAllWindows ∉ events (process_frame names ticks w)).
Proof.
  pose proof (process_frame_no_lifecycle ticks w) as H.
  split; [apply process_frame_camera |]. split; [exact H |].
  rewrite Forall_forall in H.
  repeat split; intros Hin; exact (H _ Hin I).
Qed.

(** X7. A destination directory that exists when a run starts is never
    created again and still exists at the end.  In any run the directory is
    reported created at most once, and exactly once when it was absent at
    the start and exists at the end. *)
Theorem directory_created_once (ticks : list (@tick num)) w :
  let r := process_frame names ticks w in
  (dir_exists w = true -> dir_exists (final r) = true /\ Makedirs ∉ events r)
  /\ (occurrences is_dir_created (events r) <= 1)%nat
  /\ (occurrences is_dir_created (events r) = 1%nat <->
      dir_exists w = false /\ dir_exists (final r) = true).
Proof.
  intros r.
  assert (keeps_directory w (events r) (final r)) as Hk.
  { apply (process_frame_keeps names keeps_directory).
    - intros ev w' Hev H. split; [exact H |].
      intros Hin. apply list_elem_of_singleton in Hin. subst ev. destruct Hev.
    - intros. apply process_instance_through_sink; [apply _ |].
      intros f env w' t Hd. rewrite save_stone_image_cases, Hd.
      destruct (imwrite env); unfold final, events; cbn [fst snd]; simpl;
        (split; [exact Hd |]); settle. }
  assert (directory_counted w (events r) (final r)) as Hc.
  { apply (process_frame_keeps names directory_counted).
    - intros ev w' Hev. unfold directory_counted, occurrences.
      destruct ev as [[] | | | | | | | | | | | | | | | | |]; simpl in *;
        try contradiction; lia.
    - intros. apply process_instance_through_sink; [apply _ |].
      intros f env w' t. unfold directory_counted. rewrite save_stone_image_cases.
      destruct (dir_exists w') eqn:Hd; [| destruct (makedirs_ok env)];
        destruct (imwrite env); unfold final, events, occurrences;
        cbn [fst snd]; simpl; rewrite ?Hd; reflexivity. }
  unfold directory_counted in Hc.
  split; [exact Hk |].
  destruct (dir_exists w), (dir_exists (final r)); split; try lia;
    split; try lia; intros H; try discriminate; destruct H; try discriminate; auto.
Qed.

(** X8. A run of the loop never removes a file: every name on disk at the
    start is on disk at the end.  A name that is new at the end was handed to
    [imwrite] during the run. *)
Theorem files_are_never_removed (ticks : list (@tick num)) w :
  let r := process_frame names ticks w in
  dom (files w) ⊆ dom (files (final r))
  /\ (forall name, name ∈ dom (files (final r)) ->
        name ∈ dom (files w) \/ exists frame, Imwrite name frame ∈ events r).
Proof.
  intros r. split.
  - apply (process_frame_keeps names files_grow).
    + intros ev w' _. unfold files_grow. reflexivity.
    + intros. apply process_instance_through_sink; [apply _ |].
      intros f env w' t. unfold files_grow. simpl.
      rewrite save_stone_image_files.
      destruct (dir_exists w' || makedirs_ok env); [| reflexivity].
      destruct (imwrite env); try reflexivity.
      rewrite dom_insert_L. apply union_subseteq_r.
  - apply (process_frame_keeps names files_written).
    + intros ev w' _ name H. left. exact H.
    + intros. apply process_instance_through_sink; [apply _ |].
      intros f env w' t name. simpl.
      rewrite save_stone_image_files, save_stone_image_cases.
      destruct (dir_exists w'); [| destruct (makedirs_ok env)]; simpl;
        destruct (imwrite env); unfold events; cbn [snd]; auto.
      all: rewrite dom_insert_L; intros [H | H]%elem_of_union; [| auto];
        apply elem_of_singleton in H; subst name; right; exists f;
        apply list_elem_of_In; simpl; auto 10.
Qed.

(** X9. In any run of the loop, from any state, the sink is called for a
    track exactly when the insertion of that track into the registry is
    reached, and exactly when the track is in the registry at the end without
    having been there at the start: the tracks the registry gains are the
    tracks snapshotted. *)
Theorem registry_gains_the_snapshotted (ticks : list (@tick num)) w t :
  let r := process_frame names ticks w in
  (SaveStoneImage t ∈ events r <-> RegistryAdd t ∈ events r)
  /\ (SaveStoneImage t ∈ events r <->
      t ∈ saved_stone_ids (final r) /\ t ∉ saved_stone_ids w).
Proof.
  intros r. split.
  - apply (process_frame_keeps names (paired t)).
    + intros ev w' Hev. unfold paired. rewrite !list_elem_of_singleton.
      split; intros <-; destruct Hev.
    + intros. apply process_instance_through_sink; [apply _ |].
      intros f env w' t'. unfold paired.
      destruct (save_stone_image_returns f env w') as (_ & _ & _ & Hev).
      rewrite Forall_forall in Hev.
      rewrite !elem_of_cons, !elem_of_app, !list_elem_of_singleton.
      split.
      * intros [H | [H | H]]; [injection H as ->; auto | | discriminate H].
        destruct (Hev _ H).
      * intros [H | [H | H]]; [discriminate H | | injection H as ->; auto].
        destruct (Hev _ H).
  - assert (final r = final (while_true names ticks w)) as ->
      by (subst r; rewrite process_frame_unfold; reflexivity).
    assert (events r = Enter_process_frame :: events (while_true names ticks w)) as ->
      by (subst r; rewrite process_frame_unfold; reflexivity).
    rewrite elem_of_cons.
    pose proof (while_true_counted names t ticks w) as Hc. unfold counted in Hc.
    pose proof (snapshots_member t (events (while_true names ticks w))) as Hm.
    pose proof (marked_le t (final (while_true names ticks w))) as Hle.
    rewrite (marked_present t (final (while_true names ticks w))).
    split.
    + intros [H | H]; [discriminate H |]. apply Hm in H.
      split; [lia |]. intros Hin. apply marked_present in Hin. lia.
    + intros [H1 Hout]. right. apply Hm. rewrite (marked_absent t w Hout) in Hc. lia.
Qed.
End RunKeeps.

(** ** Frames, whole and broken *)

Section Frames.
Context {num : Type} {A : Arith num}.
Variable names : gmap Z string.

Lemma stone_stoneb (i : @instance num) : stone names i <-> stoneb names i = true.
Proof.
  unfold stone, stoneb, label_of. destruct (names !! cls i) as [label|].
  - split; [intros (l' & E & H); injection E as <-; exact H | intros H; eauto].
  - split; [intros (l' & E & _); discriminate E | discriminate].
Qed.

Lemma flagged_ids_cons (i : @instance num) l :
  flagged_ids names (i :: l) =
    (if stoneb names i then {[ track_id i ]} else ∅) ∪ flagged_ids names l.
Proof.
  unfold flagged_ids. simpl. destruct (stoneb names i); simpl.
  - reflexivity.
  - rewrite (left_id_L ∅ (∪)). reflexivity.
Qed.

(** What the [for] loop leaves in the registry when every instance can be
    drawn. *)
Lemma for_instances_registry ow oh (l : list (@instance num)) frame w :
  Forall (drawable names ow oh) l ->
  saved_stone_ids (final (for_instances names ow oh l frame w))
  = saved_stone_ids w ∪ flagged_ids names l.
Proof.
  intros H. revert frame w. induction H as [| i l Hi _ IH]; intros frame w.
  - simpl. unfold flagged_ids. simpl. rewrite (right_id_L ∅ (∪)). reflexivity.
  - cbn [for_instances]. unfold bind, final.
    pose proof (process_instance_cases names ow oh i frame w) as Hc. simpl in Hc.
    unfold value, final, events in Hc.
    destruct (process_instance names ow oh i frame w) as [[[f1|] w1] e1];
      cbn [fst snd] in *.
    + specialize (IH f1 w1). unfold final in IH.
      destruct (for_instances names ow oh l f1 w1) as [[r2 w2] e2]. cbn [fst snd] in *.
      rewrite IH, flagged_ids_cons.
      destruct Hc as [(_ & ? & _) | (_ & _ & [([Hn | Hin] & -> & _) | (Hs & _ & -> & _)])];
        [discriminate | | |].
      * rewrite stone_stoneb in Hn. destruct (stoneb names i); [congruence |].
        rewrite (left_id_L ∅ (∪)). reflexivity.
      * destruct (stoneb names i); [| rewrite (left_id_L ∅ (∪)); reflexivity].
        apply set_eq. intros x. rewrite !elem_of_union, elem_of_singleton.
        split; [tauto |]. intros [? | [-> | ?]]; auto.
      * apply stone_stoneb in Hs. rewrite Hs. simpl.
        destruct (save_stone_image_returns (frame ++ annotation names ow oh i) (sink i) w)
          as (_ & Hsv & _). unfold final in Hsv. rewrite Hsv.
        apply set_eq. intros x. rewrite !elem_of_union, elem_of_singleton. tauto.
    + destruct Hc as [(Hn & _) | (_ & ? & _)]; [contradiction | discriminate].
Qed.

(** X10. After a sound frame the registry holds what it held before and the
    tracks the frame shows with a flagged label, no more and no less; and the
    sink has been called once for each of those tracks that the registry did
    not hold, and for no other track. *)
Theorem sound_frame_records_flagged (tk : @tick num) w t :
  sound names tk ->
  let r := iteration names tk w in
  saved_stone_ids (final r) = saved_stone_ids w ∪ flagged_ids names (instances_of tk)
  /\ (snapshots t (events r) <= 1)%nat
  /\ (snapshots t (events r) = 1%nat <->
      t ∈ flagged_ids names (instances_of tk) /\ t ∉ saved_stone_ids w).
Proof.
  intros (oh & ow & l & Hr & Ht & Hd) r.
  assert (saved_stone_ids (final r)
          = saved_stone_ids w ∪ flagged_ids names (instances_of tk)) as Hreg.
  { subst r. rewrite (iteration_registry names tk w oh ow l Hr Ht).
    unfold instances_of. rewrite Ht. apply for_instances_registry. exact Hd. }
  split; [exact Hreg |].
  pose proof (iteration_counted names t tk w) as Hc. unfold counted in Hc. fold r in Hc.
  pose proof (marked_le t (final r)) as Hle.
  split; [lia |]. split.
  - intros H1. assert (marked t (final r) = 1%nat /\ marked t w = 0%nat) as [Hf Hw] by lia.
    apply marked_present in Hf. rewrite Hreg in Hf.
    assert (t ∉ saved_stone_ids w) as Hout.
    { intros Hin. apply marked_present in Hin. lia. }
    split; [| exact Hout]. apply elem_of_union in Hf as [? | ?]; [contradiction | assumption].
  - intros [Hin Hout]. rewrite (marked_absent t w Hout) in Hc.
    assert (marked t (final r) = 1%nat) as Hf.
    { apply marked_present. rewrite Hreg. apply elem_of_union_r. exact Hin. }
    lia.
Qed.

(** X11. A frame in which the detector reports no active track, or an empty
    list of instances, is displayed without annotation; nothing is
    snapshotted, and the registry, the disk and the camera are as before. *)
Theorem frame_without_tracks (tk : @tick num) w oh ow :
  read tk = ReadOk oh ow -> track tk = NoTracks \/ track tk = Tracks [] ->
  iteration names tk w =
    if imshow_ok tk
    then (Ok (if stop_key tk then Break else Continue), w,
          [CameraRead; Resize; Track; Imshow []; WaitKey])
    else (Ok Continue, w,
          [CameraRead; Resize; Track; Imshow []; Log ErrProcessFrame]).
Proof.
  intros Hr Ht. rewrite iteration_of_body.
  pose proof (loop_body_cases names tk w) as Hc. simpl in Hc. rewrite Hr in Hc.
  destruct Ht as [Ht | Ht]; rewrite Ht in Hc; rewrite Hc;
    destruct (imshow_ok tk); reflexivity.
Qed.

(** X12. An instance that cannot be drawn (a coordinate that is no number, a
    class the model has no name for, a drawing call that raises) aborts the
    frame: the instances before it keep their annotations' snapshots and
    insertions, the instances after it are not processed at all, the frame is
    not displayed and the key is not polled. *)
Theorem undrawable_instance_aborts_frame (tk : @tick num) w oh ow l1 i l2 :
  read tk = ReadOk oh ow -> track tk = Tracks (l1 ++ i :: l2) ->
  Forall (drawable names ow oh) l1 -> ~ drawable names ow oh i ->
  iteration names tk w =
    (Ok Continue, final (for_instances names ow oh l1 [] w),
     [CameraRead; Resize; Track] ++ events (for_instances names ow oh l1 [] w)
     ++ [Log ErrProcessFrame]).
Proof.
  intros Hr Ht Hd Hn.
  assert (forall frame w',
             for_instances names ow oh (l1 ++ i :: l2) frame w' =
               (Raised, final (for_instances names ow oh l1 frame w'),
                events (for_instances names ow oh l1 frame w'))) as Habort.
  { clear Hr Ht. induction Hd as [| j l1 Hj _ IH]; intros frame w'.
    - cbn [app for_instances]. unfold bind.
      destruct (process_instance_cases names ow oh i frame w')
        as [(_ & Hv & Hf & He) | (? & _)]; [| contradiction].
      unfold value, final, events in *.
      destruct (process_instance names ow oh i frame w') as [[r1 w1] e1].
      cbn [fst snd] in *. subst. reflexivity.
    - cbn [app for_instances]. unfold bind.
      destruct (process_instance_cases names ow oh j frame w')
        as [(? & _) | (_ & Hv & _)]; [contradiction |].
      unfold value in Hv.
      destruct (process_instance names ow oh j frame w') as [[r1 w1] e1].
      cbn [fst] in Hv. subst r1. rewrite IH. unfold final, events.
      destruct (for_instances names ow oh l1 (frame ++ annotation names ow oh j) w1)
        as [[r2 w2] e2]. reflexivity. }
  rewrite iteration_of_body.
  pose proof (loop_body_cases names tk w) as Hc. simpl in Hc. rewrite Hr, Ht in Hc.
  rewrite Hc, Habort. reflexivity.
Qed.
End Frames.

(** On the sample installation: a stone tracked as 7, a good potato, and a
    stone tracked as 9 that the registry already holds. *)
Lemma sound_frame_records_flagged_witness :
  let l := [ Sample.seen 2 (81 # 100) 7 (Sample.sink_at 1000 Written);
             Sample.seen 0 (90 # 100) 12 (Sample.sink_at 2000 Written);
             Sample.seen 4 (70 # 100) 9 (Sample.sink_at 3000 Written) ] in
  let tk := Sample.frame_with l (-1) in
  let w := add_saved 9 (fresh true) in
  sound Sample.names tk
  /\ snapshots 7 (events (iteration Sample.names tk w)) = 1%nat
  /\ saved_stone_ids (final (iteration Sample.names tk w))
     = saved_stone_ids w ∪ flagged_ids Sample.names l.
Proof.
  intros l tk w.
  assert (sound Sample.names tk) as Hs.
  { exists 1080, 1980, l. repeat split; repeat constructor; eexists; vm_compute; reflexivity. }
  split; [exact Hs |].
  destruct (sound_frame_records_flagged Sample.names tk w 7 Hs) as (Hreg & _ & Hiff).
  split; [| exact Hreg].
  apply Hiff. split.
  - unfold flagged_ids.
    assert (map track_id (List.filter (stoneb Sample.names) (instances_of tk)) = [7; 9])
      as -> by (vm_compute; reflexivity).
    apply elem_of_list_to_set, list_elem_of_here.
  - simpl. intros [H | H]%elem_of_union.
    + apply elem_of_singleton in H. discriminate H.
    + revert H. apply not_elem_of_empty.
Defined.

(** On the sample installation: a frame with an empty list of instances. *)
Lemma frame_without_tracks_witness :
  let tk := Sample.frame_with [] 113 in
  read tk = ReadOk 1080 1980
  /\ track tk = Tracks []
  /\ iteration Sample.names tk (fresh true)
     = (Ok Break, fresh true, [CameraRead; Resize; Track; Imshow []; WaitKey]).
Proof.
  intros tk. split; [reflexivity |]. split; [reflexivity |].
  exact (frame_without_tracks Sample.names tk (fresh true) 1080 1980 eq_refl
           (or_intror eq_refl)).
Defined.

(** On the sample installation: the second of three instances has a class
    without a name; the stone after it, track 5, is not recorded. *)
Lemma undrawable_instance_aborts_frame_witness :
  let a := Sample.seen 2 (81 # 100) 7 (Sample.sink_at 1000 Written) in
  let b := Sample.seen 9 (60 # 100) 8 (Sample.sink_at 2000 Written) in
  let c := Sample.seen 2 (85 # 100) 5 (Sample.sink_at 3000 Written) in
  let tk := Sample.frame_with [a; b; c] (-1) in
  Forall (drawable Sample.names 1980 1080) [a]
  /\ ~ drawable Sample.names 1980 1080 b
  /\ marked 7 (final (iteration Sample.names tk (fresh true))) = 1%nat
  /\ marked 5 (final (iteration Sample.names tk (fresh true))) = 0%nat.
Proof.
  intros a b c tk.
  assert (Forall (drawable Sample.names 1980 1080) [a]) as Ha.
  { repeat constructor; eexists; vm_compute; reflexivity. }
  assert (~ drawable Sample.names 1980 1080 b) as Hb.
  { intros (_ & [label Hl] & _). vm_compute in Hl. discriminate Hl. }
  split; [exact Ha |]. split; [exact Hb |].
  rewrite (undrawable_instance_aborts_frame Sample.names tk (fresh true) 1080 1980
             [a] b [c] eq_refl eq_refl Ha Hb).
  split; vm_compute; reflexivity.
Defined.

(** ** The calls of a run, in order *)

Section Calls.
Context {num : Type} {A : Arith num}.
Variable names : gmap Z string.

Lemma calls_app (e1 e2 : list event) : calls (e1 ++ e2) = calls e1 ++ calls e2.
Proof. unfold calls. apply omap_app. Qed.

Lemma calls_cons (ev : event) (e : list event) :
  calls (ev :: e) = match call_of ev with Some c => c :: calls e | None => calls e end.
Proof. reflexivity. Qed.

(** The body of the [for] loop makes none of these calls. *)
Lemma for_instances_calls ow oh (l : list (@instance num)) frame w :
  calls (events (for_instances names ow oh l frame w)) = [].
Proof.
  pose proof (for_instances_emits names ow oh l frame w) as H.
  induction H as [| ev evs Hev _ IH]; [reflexivity |].
  unfold calls in *. cbn [omap list_omap]. rewrite IH.
  destruct ev; try reflexivity; destruct Hev as [[] | []].
Qed.

(** The calls of one iteration are a beginning of read, resize, track,
    display, poll, and the read is always among them. *)
Lemma iteration_calls (tk : @tick num) w :
  calls (events (iteration names tk w)) <> []
  /\ calls (events (iteration names tk w)) `prefix_of` full_iteration.
Proof.
  rewrite iteration_of_body.
  pose proof (loop_body_cases names tk w) as H. simpl in H.
  destruct (read tk) as [| | oh ow];
    [| | destruct (track tk) as [| | | l]].
  6: { pose proof (for_instances_calls ow oh l [] w) as Hc.
       rewrite H. unfold value, final, events in *.
       destruct (for_instances names ow oh l [] w) as [[[f|] w1] e1];
         cbn [fst snd] in *; [destruct (imshow_ok tk) |]; cbn [fst snd app];
         repeat (rewrite calls_cons; cbn [call_of]); rewrite ?calls_app, Hc;
         (split; [discriminate | eexists; reflexivity]). }
  all: rewrite H; try destruct (imshow_ok tk);
    unfold value, final, events; cbn [fst snd];
    (split; [discriminate | eexists; reflexivity]).
Qed.

Lemma while_true_calls (ticks : list (@tick num)) w :
  exists segs : list (list call),
    calls (events (while_true names ticks w)) = concat segs
    /\ (length segs <= length ticks)%nat
    /\ Forall (fun seg => seg <> [] /\ seg `prefix_of` full_iteration) segs
    /\ (value (while_true names ticks w) = Ok Running -> length segs = length ticks).
Proof.
  revert w. induction ticks as [| tk ticks IH]; intros w.
  - exists []. repeat split; constructor.
  - cbn [while_true]. unfold bind.
    pose proof (iteration_calls tk w) as Hi. unfold events in Hi.
    destruct (iteration names tk w) as [[[[|]|] w1] e1]; cbn [snd] in Hi.
    + destruct (IH w1) as (segs & E & Hlen & Hall & Hrun).
      unfold value, events in *.
      destruct (while_true names ticks w1) as [[r2 w2] e2]. cbn [fst snd] in *.
      exists (calls e1 :: segs). rewrite calls_app, E.
      split; [reflexivity |]. split; [cbn [length]; lia |].
      split; [constructor; assumption |].
      intros Hr. cbn [length]. rewrite (Hrun Hr). reflexivity.
    + exists [calls e1]. unfold ret, value, events. cbn [fst snd concat length].
      rewrite !app_nil_r.
      split; [reflexivity |]. split; [lia |].
      split; [constructor; [assumption | constructor] |]. discriminate.
    + exists [calls e1]. unfold value, events. cbn [fst snd concat length].
      rewrite !app_nil_r.
      split; [reflexivity |]. split; [lia |].
      split; [constructor; [assumption | constructor] |]. discriminate.
Qed.

(** X13. The calls a run of the loop makes to the camera, the detector and
    the display are, in the order of the trace, one group per tick processed,
    at most one group per tick given and exactly one when the loop is still
    running at the end; each group is a beginning of the sequence read,
    resize, track, display, poll, and starts with the read.  So within a tick
    each of these calls is made at most once, a frame is resized only after
    it was read, the detector is called only on a resized frame, a frame is
    displayed only after the detector ran, and the key is polled only after
    the display. *)
Theorem loop_calls_in_order (ticks : list (@tick num)) w :
  exists segs : list (list call),
    calls (events (process_frame names ticks w)) = concat segs
    /\ (length segs <= length ticks)%nat
    /\ Forall (fun seg => seg <> [] /\ seg `prefix_of` full_iteration) segs
    /\ (value (process_frame names ticks w) = Ok Running -> length segs = length ticks).
Proof.
  destruct (while_true_calls ticks w) as (segs & E & H).
  exists segs. rewrite process_frame_unfold.
  unfold value at 1, events at 1. cbn [fst snd].
  split; [exact E | exact H].
Qed.
End Calls.

(** ** Colours and keys *)

(** The colour of a label is (0, 0, 255) exactly for the flagged labels. *)
Lemma colour_red_iff_flagged (label : string) :
  default (0, 255, 0) (colors !! label) = (0, 0, 255) <-> is_stone label = true.
Proof.
  destruct (decide (label = "OK"%string)) as [-> | N1]; [vm_compute; split; discriminate |].
  destruct (decide (label = "PODRE"%string)) as [-> | N2];
    [vm_compute; split; discriminate |].
  destruct (decide (label = "PEDRA"%string)) as [-> | N3];
    [vm_compute; split; reflexivity |].
  destruct (decide (label = "PEDRA-NA-BATATA"%string)) as [-> | N4];
    [vm_compute; split; reflexivity |].
  destruct (decide (label = "BATATA-COM-PEDRA"%string)) as [-> | N5];
    [vm_compute; split; reflexivity |].
  unfold colors, is_stone.
  rewrite !lookup_insert_ne, lookup_singleton_ne by congruence. simpl.
  apply String.eqb_neq in N3, N4, N5. rewrite N3, N4, N5. simpl.
  split; discriminate.
Qed.

Section Colours.
Context {num : Type} {A : Arith num}.
Variable names : gmap Z string.

(** X16. An instance is drawn in (0, 0, 255) exactly when its label is one
    that can trigger a snapshot: both its rectangle and its text have that
    colour when the label is flagged, and neither has when it is not, also
    for a label the colour table does not know. *)
Theorem flagged_instances_are_drawn_red ow oh (i : @instance num) :
  drawable names ow oh i ->
  annotation names ow oh i <> []
  /\ (stone names i ->
      forall op, op ∈ annotation names ow oh i -> colour_of op = (0, 0, 255))
  /\ (~ stone names i ->
      forall op, op ∈ annotation names ow oh i -> colour_of op <> (0, 0, 255)).
Proof.
  intros Hd.
  destruct (annotation_drawable names ow oh i Hd)
    as (x1 & y1 & x2 & y2 & label & c & _ & Hl & Hc & ->).
  assert (c = (0, 0, 255) <-> stone names i) as Hiff.
  { rewrite Hc. change (match colors !! label with Some c' => c' | None => (0, 255, 0) end)
      with (default (0, 255, 0) (colors !! label)).
    rewrite colour_red_iff_flagged. unfold stone, label_of. rewrite Hl. split.
    - intros H. eauto.
    - intros (l' & E & H). injection E as <-. exact H. }
  split; [discriminate |]. split.
  - intros Hs op Hop. apply Hiff in Hs.
    apply elem_of_cons in Hop as [-> | Hop]; [exact Hs |].
    apply list_elem_of_singleton in Hop. subst op. exact Hs.
  - intros Hn op Hop Hred. apply Hn, Hiff.
    apply elem_of_cons in Hop as [-> | Hop]; [exact Hred |].
    apply list_elem_of_singleton in Hop. subst op. exact Hred.
Qed.

(** X17. The loop is left on the low byte of the key alone: an iteration that
    displays its frame leaves the loop exactly when the key is 113 modulo
    256, whatever the higher bits are; with no key pressed, where [waitKey]
    gives -1, and with any key between 0 and 255 other than 'q', it goes
    on. *)
Theorem stop_on_low_byte (tk : @tick num) w :
  (stop_key tk = true <-> key tk mod 256 = 113)
  /\ (key tk = -1 -> value (iteration names tk w) = Ok Continue)
  /\ (0 <= key tk <= 255 -> key tk <> 113 -> value (iteration names tk w) = Ok Continue)
  /\ (value (iteration names tk w) = Ok Break -> key tk mod 256 = 113).
Proof.
  assert (stop_key tk = true <-> key tk mod 256 = 113) as Hk.
  { unfold stop_key. change 255 with (Z.ones 8).
    rewrite Z.land_ones by lia. change (2 ^ 8) with 256. apply Z.eqb_eq. }
  split; [exact Hk |].
  assert (key tk mod 256 <> 113 -> value (iteration names tk w) = Ok Continue) as Hgo.
  { intros Hn. apply iteration_continues.
    destruct (stop_key tk); [exfalso; apply Hn, Hk; reflexivity | reflexivity]. }
  split; [intros Hnone; apply Hgo; rewrite Hnone; discriminate |].
  split; [intros Hr Hn; apply Hgo; rewrite Z.mod_small by lia; exact Hn |].
  intros Hb. apply Hk. destruct (stop_key tk) eqn:E; [reflexivity |].
  rewrite (iteration_continues names tk w E) in Hb. discriminate Hb.
Qed.
End Colours.

(** A stone and a rotten potato, on the sample installation. *)
Lemma flagged_instances_are_drawn_red_witness :
  let stone_i := Sample.seen 2 (81 # 100) 7 (Sample.sink_at 0 Written) in
  let rotten := Sample.seen 1 (90 # 100) 8 (Sample.sink_at 0 Written) in
  drawable Sample.names 1980 1080 stone_i
  /\ annotation Sample.names 1980 1080 rotten
     = [ Rectangle (30, 33) (309, 337) (255, 0, 0) 2;
         PutText "PODRE: 0.90" (30, 23) (255, 0, 0) 2 ]
  /\ forall op, op ∈ annotation Sample.names 1980 1080 stone_i ->
                colour_of op = (0, 0, 255).
Proof.
  intros stone_i rotten.
  assert (drawable Sample.names 1980 1080 stone_i) as Hd.
  { repeat split; eexists; vm_compute; reflexivity. }
  split; [exact Hd |]. split; [vm_compute; reflexivity |].
  destruct (flagged_instances_are_drawn_red Sample.names 1980 1080 stone_i Hd)
    as (_ & Hred & _).
  apply Hred. exists "PEDRA"%string. split; vm_compute; reflexivity.
Defined.

(** ** File names and clocks *)

Lemma string_app_assoc (a b c : string) : ((a ++ b) ++ c = a ++ (b ++ c))%string.
Proof.
  induction a as [| x a IH]; [reflexivity |].
  change (String x ((a ++ b) ++ c) = String x (a ++ (b ++ c)))%string.
  rewrite IH. reflexivity.
Qed.

Lemma string_app_split (a a' b b' : string) :
  String.length a = String.length a' -> (a ++ b = a' ++ b')%string ->
  a = a' /\ b = b'.
Proof.
  revert a'. induction a as [| x a IH]; intros [| x' a'] Hl H;
    try discriminate Hl.
  - auto.
  - change (String x (a ++ b) = String x' (a' ++ b'))%string in H.
    injection H as -> H. injection Hl as Hl. destruct (IH a' Hl H) as [-> ->]. auto.
Qed.

(** A fixed-width field can be read back, and has its width. *)
Lemma field_checked (width : nat) (bound : Z) :
  forallb (fun a => (digits_value 0 (zfill width (decimal a)) =? a)
                    && Nat.eqb (String.length (zfill width (decimal a))) width)
    (seqZ 0 bound) = true ->
  forall a, 0 <= a < bound ->
            digits_value 0 (zfill width (decimal a)) = a
            /\ String.length (zfill width (decimal a)) = width.
Proof.
  intros Hall a Ha. rewrite forallb_forall in Hall.
  specialize (Hall a). rewrite andb_true_iff, Z.eqb_eq, Nat.eqb_eq in Hall.
  apply Hall, list_elem_of_In, elem_of_seqZ. lia.
Qed.

Lemma field_two a :
  0 <= a < 100 ->
  digits_value 0 (zfill 2 (decimal a)) = a /\ String.length (zfill 2 (decimal a)) = 2%nat.
Proof. apply field_checked. vm_compute. reflexivity. Qed.

Lemma field_three a :
  0 <= a < 1000 ->
  digits_value 0 (zfill 3 (decimal a)) = a /\ String.length (zfill 3 (decimal a)) = 3%nat.
Proof. apply field_checked. vm_compute. reflexivity. Qed.

Lemma field_four a :
  0 <= a < 10000 ->
  digits_value 0 (zfill 4 (decimal a)) = a /\ String.length (zfill 4 (decimal a)) = 4%nat.
Proof. apply field_checked. vm_compute. reflexivity. Qed.

(** Two fields of the same width that print alike are equal. *)
Lemma field_inj (width : nat) (a b : Z) :
  digits_value 0 (zfill width (decimal a)) = a ->
  digits_value 0 (zfill width (decimal b)) = b ->
  zfill width (decimal a) = zfill width (decimal b) -> a = b.
Proof. intros Ha Hb E. rewrite <- Ha, <- Hb, E. reflexivity. Qed.

(** X18. For readings of the clock in the ranges of [datetime], with years of
    four digits, two calls of the sink build the same file name exactly when
    their first readings agree on day, month, year, hour, minute and second
    and their second readings agree on the millisecond.  The name holds
    nothing else of the two readings of the clock that line 58 makes. *)
Theorem snapshot_name_reads_the_clock (env env' : sink_env) :
  clock_in_range (now_date env) -> clock_in_range (now_date env') ->
  clock_in_range (now_ms env) -> clock_in_range (now_ms env') ->
  (snapshot_name env = snapshot_name env' <->
   day (now_date env) = day (now_date env')
   /\ month (now_date env) = month (now_date env')
   /\ year (now_date env) = year (now_date env')
   /\ hour (now_date env) = hour (now_date env')
   /\ minute (now_date env) = minute (now_date env')
   /\ second (now_date env) = second (now_date env')
   /\ microsecond (now_ms env) / 1000 = microsecond (now_ms env') / 1000).
Proof.
  intros (Y & Mo & D & Ho & Mi & S & _) (Y' & Mo' & D' & Ho' & Mi' & S' & _)
    (_ & _ & _ & _ & _ & _ & U) (_ & _ & _ & _ & _ & _ & U').
  split; [| intros (? & ? & ? & ? & ? & ? & ?); apply snapshot_name_fields; assumption].
  assert (0 <= microsecond (now_ms env) / 1000 < 1000) as Ms
    by (split; [apply Z.div_pos | apply Z.div_lt_upper_bound]; lia).
  assert (0 <= microsecond (now_ms env') / 1000 < 1000) as Ms'
    by (split; [apply Z.div_pos | apply Z.div_lt_upper_bound]; lia).
  destruct (field_two (day (now_date env)) ltac:(lia)) as [Vd Ld].
  destruct (field_two (day (now_date env')) ltac:(lia)) as [Vd' Ld'].
  destruct (field_two (month (now_date env)) ltac:(lia)) as [Vm Lm].
  destruct (field_two (month (now_date env')) ltac:(lia)) as [Vm' Lm'].
  destruct (field_four (year (now_date env)) ltac:(lia)) as [Vy Ly].
  destruct (field_four (year (now_date env')) ltac:(lia)) as [Vy' Ly'].
  destruct (field_two (hour (now_date env)) ltac:(lia)) as [Vh Lh].
  destruct (field_two (hour (now_date env')) ltac:(lia)) as [Vh' Lh'].
  destruct (field_two (minute (now_date env)) ltac:(lia)) as [Vi Li].
  destruct (field_two (minute (now_date env')) ltac:(lia)) as [Vi' Li'].
  destruct (field_two (second (now_date env)) ltac:(lia)) as [Vs Ls].
  destruct (field_two (second (now_date env')) ltac:(lia)) as [Vs' Ls'].
  destruct (field_three (microsecond (now_ms env) / 1000) Ms) as [Vu Lu].
  destruct (field_three (microsecond (now_ms env') / 1000) Ms') as [Vu' Lu'].
  unfold snapshot_name, strftime.
  change (os_path_join save_path ?x) with (save_path ++ x)%string.
  rewrite !string_app_assoc. intros E.
  apply string_app_split in E as [_ E]; [| reflexivity].
  apply string_app_split in E as [Ed E]; [| congruence].
  apply string_app_split in E as [_ E]; [| reflexivity].
  apply string_app_split in E as [Em E]; [| congruence].
  apply string_app_split in E as [_ E]; [| reflexivity].
  apply string_app_split in E as [Ey E]; [| congruence].
  apply string_app_split in E as [_ E]; [| reflexivity].
  apply string_app_split in E as [Eh E]; [| congruence].
  apply string_app_split in E as [_ E]; [| reflexivity].
  apply string_app_split in E as [Ei E]; [| congruence].
  apply string_app_split in E as [_ E]; [| reflexivity].
  apply string_app_split in E as [Es E]; [| congruence].
  apply string_app_split in E as [_ E]; [| reflexivity].
  apply string_app_split in E as [Eu _]; [| congruence].
  repeat split; eapply field_inj; eassumption.
Qed.

(** Two readings 544 microseconds apart, on either side of a millisecond. *)
Lemma snapshot_name_reads_the_clock_witness :
  let env := Sample.sink_at 123456 Written in
  let env' := Sample.sink_at 124000 Written in
  clock_in_range (now_date env) /\ clock_in_range (now_date env')
  /\ snapshot_name env <> snapshot_name env'.
Proof.
  intros env env'.
  assert (forall us, 0 <= us <= 999999 -> clock_in_range (Sample.clock us)) as Hr
    by (intros us Hus; unfold clock_in_range; simpl; lia).
  assert (clock_in_range (now_date env)) as H1 by (apply Hr; lia).
  assert (clock_in_range (now_date env')) as H2 by (apply Hr; lia).
  split; [exact H1 |]. split; [exact H2 |].
  intros E.
  apply (proj1 (snapshot_name_reads_the_clock env env' H1 H2 H1 H2)) in E.
  destruct E as (_ & _ & _ & _ & _ & _ & E). vm_compute in E. discriminate E.
Defined.

(** ** [main] *)

Section Main.
Context {num : Type} {A : Arith num}.
Variable names : gmap Z string.

(** [main] when the capture opens: the events of [init_camera], then the
    loop on an open camera, then, once the loop is left, [cleanup]. *)
Lemma main_opened (s : @session num) dir :
  capture s = CaptureOpened ->
  let i := init_camera CaptureOpened (setup s) (fresh dir) in
  let p := process_frame names (ticks s) (final i) in
  let c := cleanup (release_ok s) (destroy_ok s) (final p) in
  camera (final i) = Some true
  /\ main names s (fresh dir) =
       match value p with
       | Ok Exited => (Ok Exited, final c, events i ++ events p ++ events c)
       | Ok Running => (Ok Running, final p, events i ++ events p)
       | Raised => (Raised, final p, events i ++ events p)
       end.
Proof.
  intros Hcap i p c. subst c p i. unfold main. rewrite Hcap.
  pose proof (cleanup_returns (release_ok s) (destroy_ok s)) as Hclean.
  destruct (setup s); cbv [init_camera]; unfold_monad; simpl;
    (split; [reflexivity |]);
    match goal with
    | |- context [process_frame names (ticks s) ?w] =>
        destruct (process_frame names (ticks s) w) as [[[[|]|] w1] e1]; simpl;
        try reflexivity;
        specialize (Hclean w1); unfold value in Hclean;
        destruct (cleanup (release_ok s) (destroy_ok s) w1) as [[r2 w2] e2];
        simpl in *; subst r2; rewrite ?app_nil_r; reflexivity
    end.
Qed.

(** [main] when the capture does not open. *)
Lemma main_unopened (s : @session num) dir :
  capture s <> CaptureOpened ->
  value (main names s (fresh dir)) = Ok Exited
  /\ events (main names s (fresh dir)) =
       [VideoCapture]
       ++ (match capture s with
           | CaptureClosed => [Log ErrOpenCamera]
           | _ => [Log ErrInitCamera; Log ErrNoCamera]
           end)
       ++ [Print_exit; Enter_cleanup; DestroyAllWindows;
           if destroy_ok s then Log InfoReleased else Log ErrCleanup].
Proof.
  intros Hcap. destruct s as [cap stp tks rel des]. simpl in *.
  destruct cap; [| | contradiction]; destruct des; split; reflexivity.
Qed.

Lemma count_occ_none (ev : event) (evs : list event) :
  ev ∉ evs -> count_occ event_eq_dec evs ev = 0%nat.
Proof. intros H. apply count_occ_not_In. rewrite <- list_elem_of_In. exact H. Qed.

(** The [with] block enters [process_frame] exactly when [VideoCapture]
    returned an open capture, and prints its message otherwise. *)
Lemma with_block_enters_loop (s : @session num) dir :
  let r := main names s (fresh dir) in
  (Enter_process_frame ∈ events r <-> capture s = CaptureOpened)
  /\ (Print_exit ∈ events r <-> capture s <> CaptureOpened)
  /\ (value r = Ok Exited \/ value r = Ok Running)
  /\ (value r = Ok Running -> capture s = CaptureOpened).
Proof.
  intros r. subst r.
  assert (capture s = CaptureOpened \/ capture s <> CaptureOpened) as [Hcap | Hcap]
    by (destruct (capture s); [right; discriminate | right; discriminate | left; reflexivity]).
  - destruct (main_opened s dir Hcap) as [Hcam Hmain]. simpl in Hmain.
    pose proof (process_frame_no_lifecycle names (ticks s)
                  (final (init_camera CaptureOpened (setup s) (fresh dir)))) as Hno.
    rewrite Forall_forall in Hno.
    set (p := process_frame names (ticks s) _) in *.
    assert (Enter_process_frame ∈ events p) as Hin.
    { subst p. rewrite process_frame_unfold. apply list_elem_of_here. }
    assert (exists st, value p = Ok st) as [st Hst].
    { destruct (while_true_returns names (ticks s)
                  (final (init_camera CaptureOpened (setup s) (fresh dir)))) as [st Hst].
      exists st. subst p. rewrite process_frame_unfold. exact Hst. }
    assert (Print_exit ∉ events (init_camera CaptureOpened (setup s) (fresh dir)))
      as Hinit
      by (destruct (setup s); cbv [init_camera]; unfold_monad; simpl; settle).
    assert (forall rel des w', Print_exit ∉ events (cleanup rel des w')) as Hcl.
    { intros rel des [[[|]|] sv there fs]; destruct rel, des;
        cbv [cleanup]; unfold_monad; simpl; settle. }
    assert (Print_exit ∉ events p) as Hp by (intros H; exact (Hno _ H I)).
    rewrite Hmain, Hst. clear Hmain.
    destruct st; unfold value, events; cbn [fst snd].
    + split; [split; [intros _; exact Hcap |] |].
      { intros _. apply elem_of_app. right. apply elem_of_app. left. exact Hin. }
      split; [split; [| intros Hn; contradiction] |].
      { intros H. exfalso. apply elem_of_app in H as [H | H]; [exact (Hinit H) |].
        apply elem_of_app in H as [H | H]; [exact (Hp H) | exact (Hcl _ _ _ H)]. }
      split; [left; reflexivity | discriminate].
    + split; [split; [intros _; exact Hcap |] |].
      { intros _. apply elem_of_app. right. exact Hin. }
      split; [split; [| intros Hn; contradiction] |].
      { intros H. exfalso. apply elem_of_app in H as [H | H];
          [exact (Hinit H) | exact (Hp H)]. }
      split; [right; reflexivity | intros _; exact Hcap].
  - destruct (main_unopened s dir Hcap) as [Hv He]. rewrite Hv, He.
    split; [split; [| intros; contradiction] |].
    + intros H. exfalso. destruct (capture s), (destroy_ok s); settle.
    + split; [split; [intros _; exact Hcap |] |].
      * intros _. destruct (capture s), (destroy_ok s); settle.
      * split; [auto | discriminate].
Qed.

(** Once the object is constructed, [main()] is its [with] block. *)
Lemma main_constructed (s : @session num) w :
  main_with_constructor names true s w = main names s w.
Proof.
  unfold main_with_constructor, check, bind, ret.
  destruct (main names s w) as [[r w'] e]. reflexivity.
Qed.

(** X19. When the constructor raises (the model cannot be loaded),
    the exception leaves [main()] before anything else is done: the camera
    is not opened, the loop is not entered and [cleanup] is not called.  When
    the object is constructed, [main()] enters [process_frame] exactly when
    [VideoCapture] returned an open capture, whatever became of the rest of
    [init_camera]; otherwise it prints its message and does not touch the
    loop. *)
Theorem main_runs_loop_iff_camera_opens (s : @session num) dir :
  main_with_constructor names false s (fresh dir) = (Raised, fresh dir, [])
  /\ (let r := main_with_constructor names true s (fresh dir) in
      (Enter_process_frame ∈ events r <-> capture s = CaptureOpened)
      /\ (Print_exit ∈ events r <-> capture s <> CaptureOpened)
      /\ (value r = Ok Running -> capture s = CaptureOpened)).
Proof.
  split; [reflexivity |].
  rewrite main_constructed.
  destruct (with_block_enters_loop s dir) as (H1 & H2 & _ & H3).
  split; [exact H1 |]. split; [exact H2 | exact H3].
Qed.
End Main.

Lemma value_of_triple {X} (r : result X) w e : value (r, w, e) = r.
Proof. reflexivity. Qed.
Lemma final_of_triple {X} (r : result X) w e : final (r, w, e) = w.
Proof. reflexivity. Qed.
Lemma events_of_triple {X} (r : result X) w e : events (r, w, e) = e.
Proof. reflexivity. Qed.

Section MainCleanup.
Context {num : Type} {A : Arith num}.
Variable names : gmap Z string.

(** What [cleanup] emits of its own, and what it does to an open camera. *)
Lemma cleanup_counts release destroy w :
  let r := cleanup release destroy w in
  count_occ event_eq_dec (events r) Enter_cleanup = 1%nat
  /\ count_occ event_eq_dec (events r) Release
     = (match camera w with Some true => 1 | _ => 0 end)%nat
  /\ (camera w = Some true -> release = true -> camera (final r) = Some false).
Proof.
  destruct w as [[[|]|] sv there fs]; destruct release, destroy;
    cbv [cleanup]; unfold_monad; simpl; settle.
Qed.

Lemma init_camera_no_cleanup_event capture setup w :
  Forall (fun ev => ev <> Enter_cleanup /\ ev <> Release /\ ev <> DestroyAllWindows)
    (events (init_camera capture setup w)).
Proof.
  destruct capture, setup; cbv [init_camera]; unfold_monad; simpl;
    repeat constructor; discriminate.
Qed.

Lemma process_frame_no_cleanup_event (ticks : list (@tick num)) w :
  Forall (fun ev => ev <> Enter_cleanup /\ ev <> Release /\ ev <> DestroyAllWindows)
    (events (process_frame names ticks w)).
Proof.
  eapply Forall_impl; [apply process_frame_no_lifecycle |].
  intros ev Hev. repeat split; intros ->; apply Hev; exact I.
Qed.

Lemma count_occ_outside (ev : event) (evs : list event) (P : event -> Prop) :
  Forall P evs -> ~ P ev -> count_occ event_eq_dec evs ev = 0%nat.
Proof.
  intros H Hn. apply count_occ_not_In. intros Hin.
  rewrite Forall_forall in H. apply Hn, H, list_elem_of_In, Hin.
Qed.

(** X20. When [main] returns, [cleanup] has run exactly once and as the very
    last thing: everything [main] emitted before it is free of releases and
    window destruction.  The camera is released exactly once when the capture
    had opened, and not at all when it had not; after a release that
    returned, the camera is closed.  As long as the loop is still running
    nothing has been cleaned up and the camera is open. *)
Theorem main_cleans_up_once_at_the_end (s : @session num) dir :
  let r := main names s (fresh dir) in
  (value r = Ok Exited ->
   count_occ event_eq_dec (events r) Enter_cleanup = 1%nat
   /\ (exists pre w',
          events r = pre ++ events (cleanup (release_ok s) (destroy_ok s) w')
          /\ Forall (fun ev => ev <> Enter_cleanup /\ ev <> Release
                               /\ ev <> DestroyAllWindows) pre)
   /\ (capture s = CaptureOpened -> count_occ event_eq_dec (events r) Release = 1%nat)
   /\ (capture s <> CaptureOpened -> count_occ event_eq_dec (events r) Release = 0%nat)
   /\ (capture s = CaptureOpened -> release_ok s = true ->
       camera (final r) = Some false))
  /\ (value r = Ok Running ->
      count_occ event_eq_dec (events r) Enter_cleanup = 0%nat
      /\ count_occ event_eq_dec (events r) Release = 0%nat
      /\ camera (final r) = Some true).
Proof.
  intros r. subst r.
  assert (capture s = CaptureOpened \/ capture s <> CaptureOpened) as [Hcap | Hcap]
    by (destruct (capture s); [right; discriminate | right; discriminate | left; reflexivity]).
  - destruct (main_opened names s dir Hcap) as [Hcam Hmain]. simpl in Hmain.
    set (i := init_camera CaptureOpened (setup s) (fresh dir)) in *.
    pose proof (process_frame_camera names (ticks s) (final i)) as Hkeep.
    pose proof (process_frame_no_cleanup_event (ticks s) (final i)) as Hp.
    pose proof (init_camera_no_cleanup_event CaptureOpened (setup s) (fresh dir)) as Hi.
    fold i in Hi.
    set (p := process_frame names (ticks s) (final i)) in *.
    rewrite Hcam in Hkeep.
    destruct (cleanup_counts (release_ok s) (destroy_ok s) (final p)) as (C1 & C2 & C3).
    rewrite Hkeep in C2.
    assert (forall ev, ev = Enter_cleanup \/ ev = Release ->
                       count_occ event_eq_dec (events i ++ events p) ev = 0%nat) as Hz.
    { intros ev Hev. apply (count_occ_outside ev _ _ (proj2 (Forall_app _ _ _) (conj Hi Hp))).
      intros (H1 & H2 & _). destruct Hev; auto. }
    rewrite Hmain. clear Hmain.
    destruct (value p) as [[|]|];
      rewrite !value_of_triple, !final_of_triple, !events_of_triple;
      (split; [intros Hv; try discriminate Hv | intros Hv; try discriminate Hv]).
    + rewrite !app_assoc.
      rewrite !(count_occ_app event_eq_dec (events i ++ events p)), !Hz by auto.
      split; [exact C1 |]. split.
      * exists (events i ++ events p), (final p). split; [reflexivity |].
        apply Forall_app. split; assumption.
      * split; [intros _; exact C2 |]. split; [intros; contradiction |].
        intros _ Hrel. apply C3; assumption.
    + rewrite !Hz by auto. split; [reflexivity |]. split; [reflexivity | exact Hkeep].
  - destruct (main_unopened names s dir Hcap) as [Hv He]. rewrite Hv, He.
    split; [intros _ | discriminate].
    split; [destruct (capture s), (destroy_ok s); try contradiction; reflexivity |].
    split.
    + destruct s as [cap stp tks rel des]. simpl in *.
      exists ([VideoCapture]
              ++ match cap with
                 | CaptureClosed => [Log ErrOpenCamera]
                 | _ => [Log ErrInitCamera; Log ErrNoCamera]
                 end ++ [Print_exit]),
        (match cap with
         | CaptureClosed => set_camera (Some false) (fresh dir)
         | _ => fresh dir
         end).
      destruct cap; [| | contradiction]; destruct rel, des;
        (split; [reflexivity | repeat constructor; discriminate]).
    + split; [intros; contradiction |].
      split; [intros _; destruct (capture s), (destroy_ok s); try contradiction; reflexivity |].
      intros; contradiction.
Qed.
End MainCleanup.

(** ** The text of a confidence *)

(** X21. A confidence between 0 and 1 is printed, without sign, as the
    hundredths nearest to it: four characters from "0.00" to "1.00", whose
    value is within half a hundredth of the confidence. *)
Theorem confidence_text (score : Q) :
  (0 <= score)%Q -> (score <= 1)%Q ->
  exists h,
    0 <= h <= 100
    /\ format_2f score = (decimal (h / 100) ++ "." ++ zfill 2 (decimal (h mod 100)))%string
    /\ String.length (format_2f score) = 4%nat
    /\ (Qabs (score * 100 - inject_Z h) <= 1 # 2)%Q.
Proof.
  intros H0 H1. exists (round_half_even (Qabs score * 100)%Q).
  pose proof (round_half_even_nearest (Qabs score * 100)%Q) as Hn.
  set (h := round_half_even (Qabs score * 100)%Q) in *.
  destruct score as [n d]. unfold Qle in H0, H1. simpl in H0, H1, Hn.
  assert (0 <= n) as Hpos by lia.
  rewrite (Z.abs_eq n) in Hn by lia.
  assert (0 <= h <= 100) as Hh.
  { assert (Z.pos (d * 1) = Z.pos d) as E by lia. rewrite E in Hn. nia. }
  split; [exact Hh |].
  assert (format_2f (n # d) =
            (decimal (h / 100) ++ "." ++ zfill 2 (decimal (h mod 100)))%string) as Ef.
  { unfold format_2f. fold h. simpl Qnum.
    destruct (n <? 0) eqn:E; [apply Z.ltb_lt in E; lia | reflexivity]. }
  split; [exact Ef |]. split.
  - rewrite Ef.
    assert (forallb (fun x => Nat.eqb (String.length
                                (decimal (x / 100) ++ "."
                                 ++ zfill 2 (decimal (x mod 100)))%string) 4)
              (seqZ 0 101) = true) as Hall by (vm_compute; reflexivity).
    rewrite forallb_forall in Hall.
    apply Nat.eqb_eq, Hall, list_elem_of_In, elem_of_seqZ. lia.
  - unfold Qle, Qabs, Qminus, Qplus, Qmult, Qopp, inject_Z. simpl.
    assert (Z.pos (d * 1) = Z.pos d) as E by lia. rewrite E in *. lia.
Qed.

(** Half-way cases go to the even hundredth. *)
Lemma confidence_text_witness :
  (0 <= 1 # 8)%Q /\ (1 # 8 <= 1)%Q
  /\ format_2f (1 # 8) = "0.12"%string /\ format_2f (3 # 8) = "0.38"%string
  /\ exists h, 0 <= h <= 100 /\ String.length (format_2f (1 # 8)) = 4%nat
               /\ (Qabs ((1 # 8) * 100 - inject_Z h) <= 1 # 2)%Q.
Proof.
  assert (0 <= 1 # 8)%Q as H0 by discriminate.
  assert (1 # 8 <= 1)%Q as H1 by discriminate.
  split; [exact H0 |]. split; [exact H1 |].
  split; [reflexivity |]. split; [reflexivity |].
  destruct (confidence_text (1 # 8) H0 H1) as (h & Hh & _ & Hl & Hq).
  exists h. auto.
Defined.
